(** * lion-core: Progression, Pile and Exchange

    A shallow embedding of the ordered, uniquely keyed collection family of
    lion-core.  [Progression] is translated from the method bodies shown in
    the repository's API reference; [Pile] and the mailbox [Exchange] have no
    code in the repository snapshot and are modelled from the specification
    (each such definition says so in its doc comment). *)

From stdpp Require Import base gmap strings list fin_maps fin_sets fin_map_dom.
From Stdlib Require Import ZArith.

(** Exceptions raised by the code. *)
Inductive error :=
  | ItemNotFoundError
  | IndexError
  | ValueError
  | LionTypeError.

(** An [Element] owns a Lion ID ([ln_id]).  [kind] lists the class of the
    element followed by its base classes (its method resolution order). *)
Record Element := mkElement {
  ln_id : string;
  kind : list string;
  content : nat
}.

#[global] Instance Element_eq_dec : EqDecision Element.
Proof. solve_decision. Defined.

(** Inputs accepted where the code coerces "an id or an Element". *)
Inductive item :=
  | IStr (s : string)
  | IElem (e : Element).

(** The argument of [__contains__]: [None], a single item, or a list. *)
Inductive arg :=
  | ANone
  | AOne (i : item)
  | AList (l : list item).

(** [SysUtil.get_id]: an id is kept, an Element gives its [ln_id]. *)
Definition get_id (i : item) : string :=
  match i with
  | IStr s => s
  | IElem e => ln_id e
  end.

(** Modelled from the spec: [validate_order] (not in the repository
    snapshot) coerces each Identifier or Entity of its input to its
    Identifier, keeping the order. *)
Definition validate_order (l : list item) : list string := map get_id l.

(** [to_list_type] on a non-list argument wraps it in a list. *)
Definition to_list_type (a : arg) : list item :=
  match a with
  | ANone => []
  | AOne i => [i]
  | AList l => l
  end.

(** Python's [x in some_list]. *)
Definition py_in (x : string) (l : list string) : bool := bool_decide (x ∈ l).

(** Python's [list.remove]: drop the first occurrence, [ValueError]
    (here [None]) when there is none. *)
Fixpoint py_list_remove (x : string) (l : list string) : option (list string) :=
  match l with
  | [] => None
  | y :: t => if decide (x = y) then Some t else cons y <$> py_list_remove x t
  end.

(** Python's [list.insert(index, x)]: a negative index counts from the end,
    and the position is clamped to [0, len]; it never raises. *)
Definition py_insert_pos (n : nat) (index : Z) : nat :=
  if (index <? 0)%Z then Z.to_nat (Z.max 0 (index + Z.of_nat n))
  else Z.to_nat (Z.min index (Z.of_nat n)).

Definition py_list_insert (l : list string) (index : Z) (x : string) : list string :=
  let k := py_insert_pos (length l) index in
  take k l ++ x :: drop k l.

(** A Python slice [start:stop:step]. *)
Record slice := mkSlice {
  sl_start : option Z;
  sl_stop : option Z;
  sl_step : option Z
}.

(** [slice.indices(len)] for one bound: [None] takes the default; a negative
    bound counts from the end; the result is clamped to [lower, upper]. *)
Definition adjust_bound (len lower upper : Z) (b : option Z) (dflt : Z) : Z :=
  match b with
  | None => dflt
  | Some x =>
      if (x <? 0)%Z then (if (x + len <? lower)%Z then lower else x + len)
      else (if (upper <? x)%Z then upper else x)
  end.

(** The walk [i, i+step, ...] while it stays before [stop]. *)
Fixpoint slice_walk (fuel : nat) (l : list string) (i stop step : Z) : list string :=
  match fuel with
  | O => []
  | S f =>
      if (if (0 <? step)%Z then (i <? stop)%Z else (stop <? i)%Z) then
        match l !! Z.to_nat i with
        | Some x => x :: slice_walk f l (i + step) stop step
        | None => []
        end
      else []
  end.

(** [l[s]] on a Python list: [None] is the [ValueError] of a zero step. *)
Definition py_slice (l : list string) (s : slice) : option (list string) :=
  let len := Z.of_nat (length l) in
  let step := default 1%Z (sl_step s) in
  if (step =? 0)%Z then None
  else
    let lower := if (step <? 0)%Z then (-1)%Z else 0%Z in
    let upper := if (step <? 0)%Z then (len - 1)%Z else len in
    let start := adjust_bound len lower upper (sl_start s)
                   (if (step <? 0)%Z then upper else lower) in
    let stop := adjust_bound len lower upper (sl_stop s)
                  (if (step <? 0)%Z then lower else upper) in
    Some (slice_walk (S (length l)) l start stop step).

(** Python's integer subscript [l[key]]: a negative key counts from the end;
    [None] is the [IndexError] of a key out of range. *)
Definition py_index (n : nat) (key : Z) : option nat :=
  let k := if (key <? 0)%Z then (key + Z.of_nat n)%Z else key in
  if ((k <? 0) || (Z.of_nat n <=? k))%Z then None else Some (Z.to_nat k).

(** The positions [i, i+step, ...] a slice selects, while before [stop]. *)
Fixpoint slice_index_walk (fuel : nat) (i stop step : Z) : list Z :=
  match fuel with
  | O => []
  | S f =>
      if (if (0 <? step)%Z then (i <? stop)%Z else (stop <? i)%Z) then
        i :: slice_index_walk f (i + step) stop step
      else []
  end.

(** Python's [l[s] = v] on a list ([list_ass_subscript]): with step 1 the
    range [start:stop] (empty when [stop < start]) is replaced by [v]; with
    another step [v] must have one element per selected position, else
    [ValueError]; a zero step is a [ValueError] too.  [None] is the
    [ValueError]. *)
Definition py_slice_assign {B} (l : list B) (s : slice) (v : list B) : option (list B) :=
  let len := Z.of_nat (length l) in
  let step := default 1%Z (sl_step s) in
  if (step =? 0)%Z then None
  else
    let lower := if (step <? 0)%Z then (-1)%Z else 0%Z in
    let upper := if (step <? 0)%Z then (len - 1)%Z else len in
    let start := adjust_bound len lower upper (sl_start s)
                   (if (step <? 0)%Z then upper else lower) in
    let stop := adjust_bound len lower upper (sl_stop s)
                  (if (step <? 0)%Z then lower else upper) in
    if (step =? 1)%Z then
      Some (take (Z.to_nat start) l ++ v ++ drop (Z.to_nat (Z.max start stop)) l)
    else
      let idx := slice_index_walk (S (length l)) start stop step in
      if Nat.eqb (length idx) (length v) then
        Some (fold_left (fun acc p => <[Z.to_nat p.1 := p.2]> acc) (zip idx v) l)
      else None.

(** ** Progression

    A Progression is its [order] field, a list of Lion IDs.  Each method
    takes the current order and returns the new one together with the
    exception it raised, if any. *)
Module Progression.

(** [__contains__]:
<<
    if item is None or not self.order:
        return False
    item = to_list_type(item) if not isinstance(item, list) else item
    check = False
    for i in item:
        check = False
        if isinstance(i, str): check = i in self.order
        elif isinstance(i, Element): check = i.ln_id in self.order
        if not check: return False
    return check
>> *)
Fixpoint contains_loop (order : list string) (items : list item) (check : bool) : bool :=
  match items with
  | [] => check
  | i :: rest =>
      let check := match i with
                   | IStr s => py_in s order
                   | IElem e => py_in (ln_id e) order
                   end in
      if negb check then false else contains_loop order rest check
  end.

Definition contains (order : list string) (a : arg) : bool :=
  match a with
  | ANone => false
  | _ => match order with
         | [] => false
         | _ => contains_loop order (to_list_type a) false
         end
  end.

(** [remove]:
<<
    if item in self:
        item = validate_order(item)
        l_ = list(self.order)
        with contextlib.suppress(ValueError):
            for i in item:
                l_.remove(i)
            self.order = l_
            return
    raise ItemNotFoundError(f"{item}")
>> *)
Fixpoint remove_each (ids : list string) (l : list string) : option (list string) :=
  match ids with
  | [] => Some l
  | i :: rest =>
      match py_list_remove i l with
      | Some l' => remove_each rest l'
      | None => None
      end
  end.

Definition remove (order : list string) (it : list item) : list string * option error :=
  if contains order (AList it) then
    match remove_each (validate_order it) order with
    | Some l => (l, None)
    | None => (order, Some ItemNotFoundError)
    end
  else (order, Some ItemNotFoundError).

(** [exclude]:
<<
    for i in validate_order(item):
        while i in self:
            self.remove(i)
>>
    The [while] loop gets one more round of fuel than there are elements;
    each round removes one element. *)
Fixpoint exclude_while (fuel : nat) (i : string) (order : list string)
    : list string * option error :=
  match fuel with
  | O => (order, None)
  | S f =>
      if contains order (AOne (IStr i)) then
        match remove order [IStr i] with
        | (o', None) => exclude_while f i o'
        | (o', Some e) => (o', Some e)
        end
      else (order, None)
  end.

Fixpoint exclude_loop (ids : list string) (order : list string) : list string * option error :=
  match ids with
  | [] => (order, None)
  | i :: rest =>
      match exclude_while (S (length order)) i order with
      | (o', None) => exclude_loop rest o'
      | (o', Some e) => (o', Some e)
      end
  end.

Definition exclude (order : list string) (it : list item) : list string * option error :=
  exclude_loop (validate_order it) order.

(** [include]:
<<
    item_ = validate_order(item)
    for i in item_:
        if i not in self.order:
            self.order.append(i)
>> *)
Definition include_step (o : list string) (i : string) : list string :=
  if py_in i o then o else o ++ [i].

Definition include (order : list string) (it : list item) : list string :=
  fold_left include_step (validate_order it) order.

(** [insert]:
<<
    item_ = validate_order(item)
    for i in reversed(item_):
        self.order.insert(index, SysUtil.get_id(i))
>> *)
Definition insert (order : list string) (index : Z) (it : list item)
    : list string * option error :=
  (fold_left (fun o i => py_list_insert o index i) (rev (validate_order it)) order, None).

(** [__getitem__] with a slice key, on the list itself:
<<
    try:
        a = self.order[key]
        if not a:
            raise ItemNotFoundError(f"index {key} item not found")
        if isinstance(key, slice):
            return self.__class__(order=a)
        ...
    except IndexError:
        raise ItemNotFoundError(f"index {key} item not found")
>>
    A zero step makes [self.order[key]] raise [ValueError], which is not
    caught. *)
Definition getitem_slice (order : list string) (s : slice) : list string + error :=
  match py_slice order s with
  | None => inr ValueError
  | Some [] => inr ItemNotFoundError
  | Some a => inl (validate_order (map IStr a))
  end.

(** Progression objects live in a heap of references; [self.__class__(order=a)]
    allocates a new object. *)
Definition heap := gmap nat (list string).

Definition heap_getitem_slice (h : gmap nat (list string)) (r : nat) (s : slice)
    : gmap nat (list string) * (nat + error) :=
  match h !! r with
  | None => (h, inr ItemNotFoundError)
  | Some o =>
      match getitem_slice o s with
      | inl a => let r' := fresh (dom h) in (<[r' := a]> h, inl r')
      | inr e => (h, inr e)
      end
  end.

(** [__getitem__] with an integer key:
<<
    try:
        a = self.order[key]
        if not a:
            raise ItemNotFoundError(f"index {key} item not found")
        ...
        else:
            return a
    except IndexError:
        raise ItemNotFoundError(f"index {key} item not found")
>>
    An empty Lion ID is falsy, so it is reported as not found. *)
Definition getitem_index (order : list string) (key : Z) : string + error :=
  match py_index (length order) key with
  | None => inr ItemNotFoundError
  | Some k =>
      match order !! k with
      | Some a => if bool_decide (a = "") then inr ItemNotFoundError else inl a
      | None => inr ItemNotFoundError
      end
  end.

(** An element of [self.order] between the subscript assignment of
    [__setitem__] and the flattening that follows it. *)
Inductive entry :=
  | EId (s : string)
  | ENested (l : list string).

(** [to_list(..., flatten=True)] on such a list (the helper is not in the
    repository snapshot): nested lists are spliced into the top level. *)
Definition to_list_flatten (l : list entry) : list string :=
  concat (map (fun e => match e with EId s => [s] | ENested l => l end) l).

(** [__setitem__]:
<<
    a = validate_order(value)
    self.order[key] = a
    self.order = to_list(self.order, flatten=True)
>>
    With an integer key the list [a] becomes one element, then is spliced
    in; an out-of-range key raises [IndexError] before any change. *)
Definition setitem_index (order : list string) (key : Z) (it : list item)
    : list string * option error :=
  let a := validate_order it in
  match py_index (length order) key with
  | None => (order, Some IndexError)
  | Some k => (to_list_flatten (<[k := ENested a]> (map EId order)), None)
  end.

(** [__setitem__] with a slice key: the Identifiers of [a] replace the
    selected positions. *)
Definition setitem_slice (order : list string) (s : slice) (it : list item)
    : list string * option error :=
  let a := validate_order it in
  match py_slice_assign (map EId order) s (map EId a) with
  | None => (order, Some ValueError)
  | Some l => (to_list_flatten l, None)
  end.

(** [append]:
<<
    item_ = validate_order(item)
    self.order.extend(item_)
>> *)
Definition append (order : list string) (it : list item) : list string :=
  order ++ validate_order it.

End Progression.

(** ** Pile

    Modelled from the spec: the Pile class is not in the repository snapshot
    (its API reference lists the attributes [pile_], [order], [item_type] and
    [strict]).  Items are anything with an Identifier and a kind. *)
Class Identifiable (A : Type) := {
  id_of : A -> string;
  kind_of : A -> list string
}.

#[global] Instance Element_Identifiable : Identifiable Element := {
  id_of := ln_id;
  kind_of := kind
}.

Record Pile (A : Type) := mkPile {
  pile_ : gmap string A;
  order : list string;
  item_type : option (list string);
  strict : bool
}.
Arguments mkPile {A} _ _ _ _.
Arguments pile_ {A} _.
Arguments order {A} _.
Arguments item_type {A} _.
Arguments strict {A} _.

(** Keys of a Pile, as used for indexing: an Identifier (of an Identifier
    or an Entity), an integer or a slice of the order, or a list of
    Identifiers. *)
Inductive key :=
  | KId (k : string)
  | KIdx (i : Z)
  | KSlice (s : slice)
  | KList (ks : list string).

(** What [pop] returns: one entity (or the default), or a new Pile of the
    entities a slice or a list of keys selects. *)
Inductive pop_result (A : Type) :=
  | PopOne (e : A)
  | PopMany (Q : Pile A).
Arguments PopOne {A} _.
Arguments PopMany {A} _.

Module Pile.
Section Pile.
Context {A : Type} `{Identifiable A}.

Definition empty (it : option (list string)) (st : bool) : Pile A := mkPile ∅ [] it st.

(** Modelled from the spec: with [item_type] set, an item is admissible when
    its own kind is listed ([strict]) or any of its kinds is ([strict] off). *)
Definition admissible (P : Pile A) (e : A) : bool :=
  match item_type P with
  | None => true
  | Some ts =>
      if strict P then
        match kind_of e with
        | [] => false
        | k :: _ => bool_decide (k ∈ ts)
        end
      else existsb (fun k => bool_decide (k ∈ ts)) (kind_of e)
  end.

Definition has_key (P : Pile A) (k : string) : bool := bool_decide (is_Some (pile_ P !! k)).

(** [values()]: the entities in the order of the Progression. *)
Definition values (P : Pile A) : list A := omap (fun k => pile_ P !! k) (order P).

(** Add [e] at the end unless its Identifier is already a key. *)
Definition add_entity (P : Pile A) (e : A) : Pile A :=
  match pile_ P !! id_of e with
  | Some _ => P
  | None => mkPile (<[id_of e := e]> (pile_ P)) (order P ++ [id_of e]) (item_type P) (strict P)
  end.

(** Overwrite the entity of an existing key in place, or add it at the end. *)
Definition set_entity (P : Pile A) (e : A) : Pile A :=
  match pile_ P !! id_of e with
  | Some _ => mkPile (<[id_of e := e]> (pile_ P)) (order P) (item_type P) (strict P)
  | None => add_entity P e
  end.

(** Drop a key from the mapping and from the order. *)
Definition del_key (P : Pile A) (k : string) : Pile A :=
  mkPile (delete k (pile_ P)) (filter (fun k' => k' ≠ k) (order P)) (item_type P) (strict P).

(** Modelled from the spec: [include(x)] type-checks every item first, then
    adds each item whose Identifier is not yet a key. *)
Definition include (P : Pile A) (es : list A) : Pile A * option error :=
  if forallb (admissible P) es then (fold_left add_entity es P, None)
  else (P, Some LionTypeError).

(** Modelled from the spec: [exclude(x)] removes each present key; no-op otherwise. *)
Definition exclude (P : Pile A) (ks : list string) : Pile A * option error :=
  (fold_left del_key ks P, None).

(** Modelled from the spec: [remove(x)] is [exclude] that fails with
    [ItemNotFound] when a key is absent. *)
Definition remove (P : Pile A) (ks : list string) : Pile A * option error :=
  if forallb (has_key P) ks then exclude P ks else (P, Some ItemNotFoundError).

(** Position of an integer key (negative counts from the end). *)
Definition resolve_index (P : Pile A) (i : Z) : option string :=
  let n := Z.of_nat (length (order P)) in
  let j := if (i <? 0)%Z then (i + n)%Z else i in
  if ((j <? 0) || (n <=? j))%Z then None else order P !! Z.to_nat j.

(** A missing key: the default when there is one, else [ItemNotFound]. *)
Definition pop_missing (P : Pile A) (dflt : option A) : Pile A * (pop_result A + error) :=
  match dflt with
  | Some d => (P, inl (PopOne d))
  | None => (P, inr ItemNotFoundError)
  end.

(** Pop one key, when it resolves to an entity of the mapping. *)
Definition pop_one (P : Pile A) (k : option string) (dflt : option A)
    : Pile A * (pop_result A + error) :=
  match k ≫= fun k => (fun e => (k, e)) <$> pile_ P !! k with
  | Some (k, e) => (del_key P k, inl (PopOne e))
  | None => pop_missing P dflt
  end.

(** The new Pile of the entities under the keys [ks], in the order of [ks]. *)
Definition select (P : Pile A) (ks : list string) : Pile A :=
  mkPile (filter (fun kv => kv.1 ∈ ks) (pile_ P)) ks (item_type P) (strict P).

(** Modelled from the spec: [pop(key, default)] removes and returns, with
    the key resolution of [get]: an Identifier or an integer selects one
    entity; a slice is delegated to the order (an empty selection is a
    missing key, a zero step raises); a list of keys selects the matches in
    the Pile's order, and a missing one makes the whole key missing. *)
Definition pop (P : Pile A) (ky : key) (dflt : option A) : Pile A * (pop_result A + error) :=
  match ky with
  | KId k => pop_one P (Some k) dflt
  | KIdx i => pop_one P (resolve_index P i) dflt
  | KSlice s =>
      match Progression.getitem_slice (order P) s with
      | inl ks => (fold_left del_key ks P, inl (PopMany (select P ks)))
      | inr ItemNotFoundError => pop_missing P dflt
      | inr e => (P, inr e)
      end
  | KList ks =>
      if forallb (has_key P) ks then
        let sel := filter (fun k => k ∈ ks) (order P) in
        (fold_left del_key sel P, inl (PopMany (select P sel)))
      else pop_missing P dflt
  end.

(** Modelled from the spec: [append(x)] adds at the end (type-checked,
    only when the Identifier is new). *)
Definition append (P : Pile A) (e : A) : Pile A * option error := include P [e].

(** Modelled from the spec: [insert(index, x)] type-checks, rejects a
    present Identifier and an out-of-range index, else inserts at [index]. *)
Definition insert (P : Pile A) (i : Z) (e : A) : Pile A * option error :=
  if negb (admissible P e) then (P, Some LionTypeError)
  else if has_key P (id_of e) then (P, Some ValueError)
  else if ((i <? 0) || (Z.of_nat (length (order P)) <? i))%Z then (P, Some IndexError)
  else
    let n := Z.to_nat i in
    (mkPile (<[id_of e := e]> (pile_ P)) (take n (order P) ++ id_of e :: drop n (order P))
       (item_type P) (strict P), None).

(** Modelled from the spec: [update(other)] upserts every item of [other]. *)
Definition update (P : Pile A) (es : list A) : Pile A * option error :=
  if forallb (admissible P) es then (fold_left set_entity es P, None)
  else (P, Some LionTypeError).

(** Modelled from the spec: the set algebra over Identifier membership.
    [A | B]: the left operand, then the entities of [B] with new keys. *)
Definition or (P Q : Pile A) : Pile A := fold_left add_entity (values Q) P.

(** [A & B]: the entities of [A] whose key is in [B], in [A]'s order. *)
Definition and (P Q : Pile A) : Pile A :=
  fold_left del_key (filter (fun k => negb (has_key Q k)) (order P)) P.

(** [A ^ B]: keys in exactly one operand, [A]'s first. *)
Definition xor (P Q : Pile A) : Pile A :=
  fold_left add_entity (filter (fun e => negb (has_key P (id_of e))) (values Q))
    (fold_left del_key (filter (has_key Q) (order P)) P).

(** Modelled from the spec: the in-place forms replace the left operand by
    the computed result. *)
Definition ior (P Q : Pile A) : Pile A * option error := (or P Q, None).
Definition iand (P Q : Pile A) : Pile A * option error := (and P Q, None).
Definition ixor (P Q : Pile A) : Pile A * option error := (xor P Q, None).

(** The mutating calls of the Pile API. *)
Inductive op :=
  | OpInclude (es : list A)
  | OpExclude (ks : list string)
  | OpRemove (ks : list string)
  | OpPop (ky : key) (dflt : option A)
  | OpAppend (e : A)
  | OpInsert (i : Z) (e : A)
  | OpUpdate (es : list A)
  | OpIor (Q : Pile A)
  | OpIand (Q : Pile A)
  | OpIxor (Q : Pile A).

(** One call: the Pile afterwards, and whether the call raised. *)
Definition exec (P : Pile A) (o : op) : Pile A * bool :=
  match o with
  | OpInclude es => let r := include P es in (r.1, bool_decide (is_Some r.2))
  | OpExclude ks => let r := exclude P ks in (r.1, bool_decide (is_Some r.2))
  | OpRemove ks => let r := remove P ks in (r.1, bool_decide (is_Some r.2))
  | OpPop ky d => let r := pop P ky d in
                  (r.1, match r.2 with inl _ => false | inr _ => true end)
  | OpAppend e => let r := append P e in (r.1, bool_decide (is_Some r.2))
  | OpInsert i e => let r := insert P i e in (r.1, bool_decide (is_Some r.2))
  | OpUpdate es => let r := update P es in (r.1, bool_decide (is_Some r.2))
  | OpIor Q => let r := ior P Q in (r.1, bool_decide (is_Some r.2))
  | OpIand Q => let r := iand P Q in (r.1, bool_decide (is_Some r.2))
  | OpIxor Q => let r := ixor P Q in (r.1, bool_decide (is_Some r.2))
  end.

(** A sequence of calls; a call that raises is caught and the next runs on
    the Pile the failed call left. *)
Fixpoint exec_all (P : Pile A) (os : list op) : Pile A :=
  match os with
  | [] => P
  | o :: rest => exec_all (exec P o).1 rest
  end.

(** The order↔map consistency of a Pile, with every entity stored under its
    own Identifier. *)
Definition wf (P : Pile A) : Prop :=
  NoDup (order P) /\ dom (pile_ P) = list_to_set (order P) /\
  map_Forall (fun k e => id_of e = k) (pile_ P).

#[global] Instance wf_dec (P : Pile A) : Decision (wf P).
Proof. unfold wf. apply _. Defined.

(** The map built from a list of items, the first item of a key winning. *)
Definition ltm (es : list A) : gmap string A := list_to_map (map (fun e => (id_of e, e)) es).

(** Modelled from the spec: two Piles are equal when they hold the same
    Identifiers in the same order, with the same entities. *)
Definition equal (P Q : Pile A) : Prop := order P = order Q /\ pile_ P = pile_ Q.

End Pile.
End Pile.

(** Pile objects in a heap of references, for the in-place operators
    [p1 |= p2], which read both operands and then write the left one. *)
Module PileHeap.

Definition ior_ref (h : gmap nat (Pile Element)) (r1 r2 : nat) : gmap nat (Pile Element) :=
  match h !! r1, h !! r2 with
  | Some P, Some Q => <[r1 := (Pile.ior P Q).1]> h
  | _, _ => h
  end.

End PileHeap.

(** ** Exchange

    Modelled from the spec: the Exchange (mailbox) class is not in the
    repository snapshot.  A Package carries sender and recipient
    Identifiers; the mailbox owns an inbound Pile and one outbound Pile per
    recipient. *)
Module Exchange.

Record Package := mkPackage {
  pkg_id : string;
  sender : string;
  recipient : string;
  category : string;
  payload : nat
}.

#[global] Instance Package_Identifiable : Identifiable Package := {
  id_of := pkg_id;
  kind_of := fun _ => ["Package"]
}.

Record Mailbox := mkMailbox {
  inbound : Pile Package;
  outbound : gmap string (Pile Package)
}.

Definition empty_queue : Pile Package := Pile.empty None false.

(** Modelled from the spec: [send(package)] checks that sender and
    recipient are non-empty and distinct, then appends the Package to the
    outbound Pile of its recipient. *)
Definition send (mb : Mailbox) (p : Package) : Mailbox * option error :=
  if bool_decide (sender p = "" \/ recipient p = "" \/ sender p = recipient p)%string
  then (mb, Some ValueError)
  else
    let q := default empty_queue (outbound mb !! recipient p) in
    match Pile.append q p with
    | (q', None) => (mkMailbox (inbound mb) (<[recipient p := q']> (outbound mb)), None)
    | (_, Some e) => (mb, Some e)
    end.

(** Modelled from the spec: [drain_outbound(recipient)] removes and returns
    every queued Package of the recipient, in order, leaving an empty queue;
    with nothing queued it returns the empty list. *)
Definition drain_outbound (mb : Mailbox) (r : string) : list Package * Mailbox :=
  match outbound mb !! r with
  | None => ([], mb)
  | Some q => (Pile.values q, mkMailbox (inbound mb) (<[r := empty_queue]> (outbound mb)))
  end.

(** Several sends in a row, stopping at the first that raises. *)
Fixpoint send_all (mb : Mailbox) (ps : list Package) : Mailbox * option error :=
  match ps with
  | [] => (mb, None)
  | p :: rest =>
      match send mb p with
      | (mb', None) => send_all mb' rest
      | (mb', Some e) => (mb', Some e)
      end
  end.

End Exchange.

(** Sample data used by the concrete checks below. *)
Module Samples.
Import Exchange.

Definition el (s : string) (n : nat) : Element := mkElement s ["Element"] n.
Definition pile_of (es : list Element) : Pile Element :=
  (Pile.include (Pile.empty None false) es).1.

Definition pk (s : string) (n : nat) : Package := mkPackage s "s" "r" "request" n.
Definition queue_of (ps : list Package) : Pile Package :=
  fold_left Pile.add_entity ps empty_queue.

(** A heap holding one Progression order at reference [0]. *)
Definition heap0 : gmap nat (list string) := {[0 := ["a"; "b"; "c"]]}.

End Samples.

(** Settle a decidable proposition on concrete data by evaluation. *)
Ltac decide_by_eval :=
  match goal with |- ?G => apply (bool_decide_unpack G); vm_compute; reflexivity end.

Example py_slice_ex1 :
  py_slice ["a"; "b"; "c"; "d"] (mkSlice (Some 1%Z) None None) = Some ["b"; "c"; "d"].
Proof. reflexivity. Qed.
Example py_slice_ex2 :
  py_slice ["a"; "b"; "c"; "d"] (mkSlice None None (Some (-2)%Z)) = Some ["d"; "b"].
Proof. reflexivity. Qed.
Example py_slice_ex3 :
  py_slice ["a"; "b"; "c"; "d"] (mkSlice (Some (-3)%Z) (Some 10%Z) (Some 2%Z)) = Some ["b"; "d"].
Proof. reflexivity. Qed.
Example py_insert_ex :
  py_list_insert ["a"; "b"] (-1)%Z "x" = ["a"; "x"; "b"].
Proof. reflexivity. Qed.


(** ** Progression: facts *)
Module ProgressionFacts.
Import Progression.

Example remove_ex1 : remove ["a"; "b"; "a"] [IStr "a"] = (["b"; "a"], None).
Proof. reflexivity. Qed.
Example remove_ex2 : remove ["a"] [IStr "a"; IStr "a"] = (["a"], Some ItemNotFoundError).
Proof. reflexivity. Qed.
Example exclude_ex : exclude ["a"; "b"; "a"] [IStr "a"; IStr "z"] = (["b"], None).
Proof. reflexivity. Qed.
Example insert_ex : insert ["a"; "b"] (-1)%Z [IStr "x"; IStr "y"] = (["a"; "y"; "x"; "b"], None).
Proof. reflexivity. Qed.

Lemma py_in_spec x l : py_in x l = true <-> x ∈ l.
Proof. unfold py_in. apply bool_decide_eq_true. Qed.

Lemma contains_loop_nonempty order (its : list item) c :
  its <> [] ->
  contains_loop order its c = forallb (fun i => py_in (get_id i) order) its.
Proof.
  revert c. induction its as [|i rest IH]; intros c Hne; [done|].
  simpl. destruct i as [s|e]; simpl;
    (destruct (py_in _ order); simpl; [|done]);
    (destruct rest as [|j rest']; [done|]); apply IH; done.
Qed.

(** A list argument is contained exactly when it is non-empty, the order is
    non-empty and each of its Identifiers occurs in the order. *)
Lemma contains_list order (its : list item) :
  contains order (AList its) = true <->
  order <> [] /\ its <> [] /\ Forall (fun i => get_id i ∈ order) its.
Proof.
  unfold contains. destruct order as [|o os]; [split; [done|naive_solver]|].
  destruct its as [|i rest].
  - simpl. split; [done|naive_solver].
  - rewrite contains_loop_nonempty by done. rewrite forallb_forall.
    rewrite Forall_forall. setoid_rewrite <- list_elem_of_In.
    setoid_rewrite py_in_spec. naive_solver.
Qed.

Lemma contains_one order s :
  contains order (AOne (IStr s)) = py_in s order.
Proof.
  unfold contains. destruct order as [|o os]; [done|]. simpl.
  by destruct (py_in s (o :: os)).
Qed.

(** Python's [list.remove] drops the first occurrence. *)
Lemma py_list_remove_first x l l' :
  py_list_remove x l = Some l' ->
  exists l1 l2, l = l1 ++ (x :: l2) /\ (x ∉ l1) /\ l' = l1 ++ l2.
Proof.
  revert l'. induction l as [|y t IH]; intros l' H; simpl in H; [done|].
  destruct (decide (x = y)) as [->|Hne].
  - injection H as <-. exists [], t. set_solver.
  - destruct (py_list_remove x t) as [t'|] eqn:E; simpl in H; [|done].
    injection H as <-. destruct (IH t' eq_refl) as (l1 & l2 & -> & Hn & ->).
    exists (y :: l1), l2. set_solver.
Qed.

Lemma py_list_remove_present x l :
  x ∈ l -> exists l', py_list_remove x l = Some l'.
Proof.
  induction l as [|y t IH]; intros Hin; [set_solver|]. simpl.
  destruct (decide (x = y)); [eauto|].
  destruct IH as [t' ->]; [set_solver|]. eauto.
Qed.

Lemma remove_each_members ids l l' :
  remove_each ids l = Some l' -> Forall (fun i => i ∈ l) ids.
Proof.
  revert l. induction ids as [|i rest IH]; intros l H; simpl in H; [done|].
  destruct (py_list_remove i l) as [m|] eqn:E; [|done].
  destruct (py_list_remove_first _ _ _ E) as (l1 & l2 & -> & _ & ->).
  constructor; [set_solver|].
  eapply Forall_impl; [apply (IH _ H)|]. set_solver.
Qed.

Lemma filter_keep_all {B} (P : B -> Prop) `{!forall x, Decision (P x)} (l : list B) :
  (forall x, x ∈ l -> P x) -> filter P l = l.
Proof.
  induction l as [|x l IH]; intros Hall; [done|].
  rewrite filter_cons_True by (apply Hall; set_solver). f_equal. apply IH. set_solver.
Qed.

Lemma exclude_while_spec fuel i (order : list string) :
  length order < fuel ->
  exclude_while fuel i order = (filter (fun k => k ≠ i) order, None).
Proof.
  revert order. induction fuel as [|f IH]; intros order Hlen; [lia|].
  cbn [exclude_while]. rewrite contains_one. destruct (py_in i order) eqn:Ein.
  - apply py_in_spec in Ein.
    destruct (py_list_remove_present _ _ Ein) as [o' Ho'].
    pose proof (py_list_remove_first _ _ _ Ho') as (l1 & l2 & -> & Hn & ->).
    unfold remove.
    assert (Hc : contains (l1 ++ i :: l2) (AList [IStr i]) = true).
    { apply contains_list. split; [destruct l1; done|]. split; [done|].
      constructor; [simpl; set_solver|constructor]. }
    rewrite Hc. simpl. rewrite Ho'. simpl.
    rewrite IH by (rewrite length_app in *; simpl in *; lia).
    f_equal. rewrite !filter_app, filter_cons_False by congruence. done.
  - f_equal. symmetry. apply filter_keep_all. intros x Hx ->.
    apply Bool.not_true_iff_false in Ein. apply Ein, py_in_spec, Hx.
Qed.

Lemma exclude_loop_spec ids (order : list string) :
  exclude_loop ids order = (filter (fun k => k ∉ ids) order, None).
Proof.
  revert order. induction ids as [|i rest IH]; intros order; cbn [exclude_loop].
  - f_equal. symmetry. apply filter_keep_all. set_solver.
  - rewrite exclude_while_spec by lia. rewrite IH. f_equal.
    rewrite list_filter_filter. apply list_filter_iff. set_solver.
Qed.

(** C10 *)
(** Claim C10: for every Progression, even a non-empty one, the containment
    test is [False] for [None] and for the empty list (no vacuous truth). *)
Theorem contains_none_and_empty_false (order : list string) :
  contains order ANone = false /\ contains order (AList []) = false.
Proof. split; [done|]. by destruct order. Qed.

(** C2 *)
(** Claim C2: [remove(x)] removes, for each given Identifier in turn, its
    first occurrence; if some given Identifier does not occur, it raises
    [ItemNotFoundError]; whenever it raises, the order is left exactly as it
    was. *)
Theorem remove_first_occurrence_all_or_nothing (order : list string) (it : list item) :
  (Exists (fun i => get_id i ∉ order) it ->
     remove order it = (order, Some ItemNotFoundError)) /\
  (forall o' e, remove order it = (o', Some e) -> o' = order) /\
  (forall o', remove order it = (o', None) ->
     remove_each (validate_order it) order = Some o') /\
  (forall x o', remove order [IStr x] = (o', None) ->
     exists l1 l2, order = l1 ++ (x :: l2) /\ (x ∉ l1) /\ o' = l1 ++ l2).
Proof.
  split; [|split; [|split]].
  - intros Hex. unfold remove.
    destruct (contains order (AList it)) eqn:Hc; [|done].
    apply contains_list in Hc as (_ & _ & Hall).
    exfalso. apply Exists_exists in Hex as (i & Hi & Hn).
    rewrite Forall_forall in Hall. apply Hn, Hall, Hi.
  - intros o' e. unfold remove.
    destruct (contains order (AList it)); [|congruence].
    destruct (remove_each (validate_order it) order); congruence.
  - intros o'. unfold remove.
    destruct (contains order (AList it)); [|congruence].
    destruct (remove_each (validate_order it) order); congruence.
  - intros x o'. unfold remove.
    destruct (contains order (AList [IStr x])); [|congruence]. simpl.
    destruct (py_list_remove x order) eqn:E; simpl; [|congruence].
    intros [= <-]. by apply py_list_remove_first.
Qed.

(** C3 *)
(** Claim C3: [exclude(x)] removes every occurrence of each given
    Identifier and never raises; when none of them occurs, the order is
    unchanged. *)
Theorem exclude_removes_all_never_fails (order : list string) (it : list item) :
  exclude order it = (filter (fun k => k ∉ validate_order it) order, None) /\
  ((forall k, k ∈ validate_order it -> k ∉ order) -> exclude order it = (order, None)).
Proof.
  unfold exclude. rewrite exclude_loop_spec. split; [done|].
  intros Habs. f_equal. apply filter_keep_all. intros x Hx Hin. by apply (Habs x).
Qed.

Lemma py_list_insert_at (l : list string) (index : Z) x :
  (0 <= index <= Z.of_nat (length l))%Z ->
  py_list_insert l index x = take (Z.to_nat index) l ++ x :: drop (Z.to_nat index) l.
Proof.
  intros Hr. unfold py_list_insert, py_insert_pos.
  destruct (Z.ltb_spec index 0); [lia|].
  by rewrite Z.min_l by lia.
Qed.

Lemma py_list_insert_perm (l : list string) index x : py_list_insert l index x ≡ₚ x :: l.
Proof.
  unfold py_list_insert. rewrite <- Permutation_middle.
  by rewrite take_drop.
Qed.

Lemma insert_fold_in_range (order : list string) (index : Z) (ids : list string) :
  (0 <= index <= Z.of_nat (length order))%Z ->
  fold_right (fun x o => py_list_insert o index x) order ids =
  take (Z.to_nat index) order ++ ids ++ drop (Z.to_nat index) order.
Proof.
  intros Hr. induction ids as [|i ids IH]; simpl.
  - by rewrite take_drop.
  - rewrite IH. rewrite py_list_insert_at
      by (rewrite !length_app, length_take; lia).
    assert (Hk : length (take (Z.to_nat index) order) = Z.to_nat index)
      by (apply length_take_le; lia).
    rewrite take_app_length' by done. rewrite drop_app_length' by done. done.
Qed.

Lemma insert_fold_perm (order : list string) (index : Z) (ids : list string) :
  fold_right (fun x o => py_list_insert o index x) order ids ≡ₚ ids ++ order.
Proof.
  induction ids as [|i ids IH]; simpl; [done|].
  by rewrite py_list_insert_perm, IH.
Qed.

Lemma include_fold_keeps ids (o : list string) x :
  x ∈ o -> x ∈ fold_left include_step ids o.
Proof.
  revert o. induction ids as [|i ids IH]; intros o Hx; simpl; [done|].
  apply IH. unfold include_step. destruct (py_in i o); set_solver.
Qed.

Lemma include_fold_adds ids (o : list string) x :
  x ∈ ids -> x ∈ fold_left include_step ids o.
Proof.
  revert o. induction ids as [|i ids IH]; intros o Hx; simpl; [set_solver|].
  apply elem_of_cons in Hx as [->|Hx]; [|by apply IH].
  apply include_fold_keeps. unfold include_step.
  destruct (py_in i o) eqn:E; [by apply py_in_spec|set_solver].
Qed.

Lemma include_fold_present ids (o : list string) :
  (forall x, x ∈ ids -> x ∈ o) -> fold_left include_step ids o = o.
Proof.
  revert o. induction ids as [|i ids IH]; intros o Hall; simpl; [done|].
  unfold include_step at 2.
  assert (Hi : py_in i o = true) by (apply py_in_spec, Hall; set_solver).
  rewrite Hi. apply IH. set_solver.
Qed.

Lemma getitem_slice_copy (a : list string) :
  validate_order (map IStr a) = a.
Proof.
  unfold validate_order. rewrite map_map. simpl. apply map_id.
Qed.

(** C7 *)
(** Claim C7 fails: [insert] does not reject a negative or out-of-range
    index.  On [["a"; "b"]], index [-1] inserts before the last element and
    index [5] appends, and neither raises. *)
Lemma insert_bad_index_no_error :
  insert ["a"; "b"] (-1)%Z [IStr "x"] = (["a"; "x"; "b"], None) /\
  insert ["a"; "b"] 5%Z [IStr "x"] = (["a"; "b"; "x"], None).
Proof. split; reflexivity. Qed.

(** Claim C7, as amended: [insert(i, x)] never raises; it always adds
    exactly the coerced elements of [x]; for [0 <= i <= len] it places them
    at position [i], in order, shifting the later elements. *)
Theorem insert_in_range_shifts (order : list string) (index : Z) (it : list item) :
  (insert order index it).2 = None /\
  (insert order index it).1 ≡ₚ order ++ validate_order it /\
  ((0 <= index <= Z.of_nat (length order))%Z ->
     (insert order index it).1 =
     take (Z.to_nat index) order ++ validate_order it ++ drop (Z.to_nat index) order).
Proof.
  unfold insert; simpl.
  rewrite <- (Stdlib.Lists.List.fold_left_rev_right (fun x o => py_list_insert o index x)).
  rewrite rev_involutive.
  split; [done|]. split.
  - rewrite insert_fold_perm. apply Permutation_app_comm.
  - apply insert_fold_in_range.
Qed.

(** [include(x)] appends an Identifier only when it is absent, and
    [include(x); include(x)] equals a single [include(x)]. *)
Lemma prog_include_idempotent (order : list string) (it : list item) :
  include (include order it) it = include order it /\
  (forall i, include order [i] =
     if py_in (get_id i) order then order else order ++ [get_id i]).
Proof.
  split.
  - unfold include. apply include_fold_present.
    intros x Hx. by apply include_fold_adds.
  - intros i. reflexivity.
Qed.

(** C9 *)
(** Claim C9 fails: a slice that selects nothing raises
    [ItemNotFoundError] instead of returning an empty Progression. *)
Lemma getitem_empty_slice_raises :
  heap_getitem_slice {[0 := ["a"; "b"]]} 0 (mkSlice (Some 1%Z) (Some 1%Z) None) =
  ({[0 := ["a"; "b"]]}, inr ItemNotFoundError).
Proof. reflexivity. Qed.

(** Claim C9, as amended: a slice with a non-zero step that selects at least
    one Identifier returns a new Progression, stored at a fresh reference,
    holding exactly the selection; whatever is later written to it, the
    sliced Progression is unchanged.  An empty selection raises
    [ItemNotFoundError]; a zero step raises [ValueError]. *)
Theorem getitem_slice_fresh_copy (h : gmap nat (list string)) (r : nat) (o : list string)
    (s : slice) :
  h !! r = Some o ->
  (forall sel, py_slice o s = Some sel -> sel <> [] ->
     exists r', heap_getitem_slice h r s = (<[r' := sel]> h, inl r') /\
       r' <> r /\ h !! r' = None /\
       (forall o', <[r' := o']> (<[r' := sel]> h) !! r = Some o)) /\
  (py_slice o s = Some [] -> heap_getitem_slice h r s = (h, inr ItemNotFoundError)) /\
  (py_slice o s = None -> heap_getitem_slice h r s = (h, inr ValueError)).
Proof.
  intros Hr. unfold heap_getitem_slice, getitem_slice. rewrite Hr.
  split; [|split].
  - intros sel Hs Hne. rewrite Hs.
    assert (Hf : h !! fresh (dom h) = None)
      by (apply not_elem_of_dom, is_fresh).
    exists (fresh (dom h)).
    destruct sel as [|x sel]; [done|].
    cbv zeta. rewrite getitem_slice_copy. split; [done|].
    split; [intros Heq; rewrite Heq in Hf; congruence|]. split; [done|].
    intros o'. rewrite insert_insert_eq, lookup_insert_ne by congruence. done.
  - by intros ->.
  - by intros ->.
Qed.

Lemma remove_first_occurrence_all_or_nothing_witness :
  Exists (fun i => get_id i ∉ ["a"; "b"]) [IStr "z"] /\
  remove ["a"; "b"] [IStr "z"] = (["a"; "b"], Some ItemNotFoundError).
Proof.
  assert (Hex : Exists (fun i => get_id i ∉ ["a"; "b"]) [IStr "z"]) by decide_by_eval.
  split; [exact Hex|].
  apply (proj1 (remove_first_occurrence_all_or_nothing ["a"; "b"] [IStr "z"])). exact Hex.
Defined.

Lemma exclude_removes_all_never_fails_witness :
  (forall k, k ∈ validate_order [IStr "z"] -> k ∉ ["a"; "b"]) /\
  exclude ["a"; "b"] [IStr "z"] = (["a"; "b"], None).
Proof.
  assert (Habs : forall k, k ∈ validate_order [IStr "z"] -> k ∉ ["a"; "b"]).
  { intros k Hk. simpl in Hk. apply list_elem_of_singleton in Hk. subst k. decide_by_eval. }
  split; [exact Habs|].
  apply (proj2 (exclude_removes_all_never_fails ["a"; "b"] [IStr "z"])). exact Habs.
Defined.

Lemma insert_in_range_shifts_witness :
  (0 <= 1 <= Z.of_nat (length ["a"; "b"]))%Z /\
  (insert ["a"; "b"] 1%Z [IStr "x"; IStr "y"]).1 =
  take (Z.to_nat 1) ["a"; "b"] ++ validate_order [IStr "x"; IStr "y"] ++ drop (Z.to_nat 1) ["a"; "b"].
Proof.
  split; [simpl; lia|].
  apply (proj2 (proj2 (insert_in_range_shifts ["a"; "b"] 1%Z [IStr "x"; IStr "y"]))).
  simpl. lia.
Defined.

Lemma getitem_slice_fresh_copy_witness :
  Samples.heap0 !! 0 = Some ["a"; "b"; "c"] /\
  py_slice ["a"; "b"; "c"] (mkSlice (Some 1%Z) None None) = Some ["b"; "c"] /\
  exists r', heap_getitem_slice Samples.heap0 0 (mkSlice (Some 1%Z) None None) =
               (<[r' := ["b"; "c"]]> Samples.heap0, inl r') /\
    r' <> 0 /\ Samples.heap0 !! r' = None /\
    (forall o', <[r' := o']> (<[r' := ["b"; "c"]]> Samples.heap0) !! 0 =
                Some ["a"; "b"; "c"]).
Proof.
  assert (Hr : Samples.heap0 !! 0 = Some ["a"; "b"; "c"])
    by reflexivity.
  assert (Hs : py_slice ["a"; "b"; "c"] (mkSlice (Some 1%Z) None None) = Some ["b"; "c"])
    by reflexivity.
  split; [exact Hr|]. split; [exact Hs|].
  apply (proj1 (getitem_slice_fresh_copy _ 0 _ (mkSlice (Some 1%Z) None None) Hr)).
  - exact Hs.
  - discriminate.
Defined.

End ProgressionFacts.

(** ** Pile: facts *)
Module PileFacts.
Section PileFacts.
Context {A : Type} `{Identifiable A}.
Implicit Types (P Q : Pile A) (e : A) (es : list A).

Lemma wf_mem P k : Pile.wf P -> k ∈ order P <-> is_Some (pile_ P !! k).
Proof.
  intros (_ & Hdom & _). rewrite <- elem_of_dom, Hdom, elem_of_list_to_set. done.
Qed.

Lemma wf_size P : Pile.wf P -> length (order P) = size (pile_ P).
Proof.
  intros (Hnd & Hdom & _). rewrite <- size_dom, Hdom.
  symmetry. by apply size_list_to_set.
Qed.

Lemma wf_empty it st : Pile.wf (Pile.empty (A:=A) it st).
Proof.
  unfold Pile.wf, Pile.empty; simpl. split; [constructor|].
  split; [by rewrite dom_empty_L|]. apply map_Forall_empty.
Qed.

Lemma wf_add_entity P e : Pile.wf P -> Pile.wf (Pile.add_entity P e).
Proof.
  intros Hwf. unfold Pile.add_entity.
  destruct (pile_ P !! id_of e) eqn:E; [done|].
  destruct Hwf as (Hnd & Hdom & Hfa). unfold Pile.wf; cbn [pile_ order]. split; [|split].
  - apply NoDup_app. split; [done|]. split; [|apply NoDup_singleton].
    intros x Hx ->%list_elem_of_singleton.
    assert (Hd : id_of e ∈ dom (pile_ P)) by (rewrite Hdom, elem_of_list_to_set; done).
    apply elem_of_dom in Hd. rewrite E in Hd. by destruct Hd.
  - rewrite dom_insert_L, list_to_set_app_L, Hdom. cbn [list_to_set]. set_solver.
  - by apply map_Forall_insert_2.
Qed.

Lemma wf_set_entity P e : Pile.wf P -> Pile.wf (Pile.set_entity P e).
Proof.
  intros Hwf. unfold Pile.set_entity.
  destruct (pile_ P !! id_of e) eqn:E; [|by apply wf_add_entity].
  destruct Hwf as (Hnd & Hdom & Hfa). unfold Pile.wf; cbn [pile_ order]. split; [done|]. split.
  - rewrite dom_insert_L, <- Hdom.
    assert (id_of e ∈ dom (pile_ P)) by (apply elem_of_dom; eauto). set_solver.
  - by apply map_Forall_insert_2.
Qed.

Lemma wf_del_key P k : Pile.wf P -> Pile.wf (Pile.del_key P k).
Proof.
  intros (Hnd & Hdom & Hfa). unfold Pile.del_key. unfold Pile.wf; cbn [pile_ order]. split; [|split].
  - by apply NoDup_filter.
  - rewrite dom_delete_L, Hdom. apply set_eq. intros x.
    rewrite elem_of_difference, !elem_of_list_to_set, list_elem_of_filter.
    set_solver.
  - by apply map_Forall_delete.
Qed.

Lemma wf_fold {B} (f : Pile A -> B -> Pile A) (l : list B) P :
  (forall P' b, Pile.wf P' -> Pile.wf (f P' b)) -> Pile.wf P -> Pile.wf (fold_left f l P).
Proof.
  intros Hf. revert P. induction l as [|b l IH]; intros P HP; simpl; [done|].
  apply IH. by apply Hf.
Qed.

Lemma list_to_set_insert_at (l : list string) n x :
  list_to_set (take n l ++ x :: drop n l) = ({[x]} ∪ list_to_set l : gset string).
Proof.
  assert (Hl : list_to_set l = (list_to_set (take n l) ∪ list_to_set (drop n l) : gset string))
    by (rewrite <- list_to_set_app_L, take_drop; done).
  rewrite Hl, list_to_set_app_L. cbn [list_to_set]. set_solver.
Qed.

Lemma wf_insert P i e : Pile.wf P -> Pile.wf (Pile.insert P i e).1.
Proof.
  intros Hwf. unfold Pile.insert.
  destruct (negb (Pile.admissible P e)); [done|].
  destruct (Pile.has_key P (id_of e)) eqn:Hk; [done|].
  destruct (_ || _)%Z; [done|]. unfold Pile.wf; cbn [pile_ order fst].
  destruct Hwf as (Hnd & Hdom & Hfa).
  assert (Hn : id_of e ∉ order P).
  { intros Hin. unfold Pile.has_key in Hk. apply bool_decide_eq_false in Hk.
    apply Hk, elem_of_dom. rewrite Hdom, elem_of_list_to_set. done. }
  split; [|split].
  - rewrite <- Permutation_middle, take_drop. by constructor.
  - rewrite dom_insert_L, list_to_set_insert_at, Hdom. done.
  - by apply map_Forall_insert_2.
Qed.

Lemma wf_pop_missing P d : Pile.wf P -> Pile.wf (Pile.pop_missing P d).1.
Proof. intros Hwf. unfold Pile.pop_missing. by destruct d. Qed.

Lemma wf_pop_one P k d : Pile.wf P -> Pile.wf (Pile.pop_one P k d).1.
Proof.
  intros Hwf. unfold Pile.pop_one.
  destruct (_ ≫= _) as [[k' e']|]; simpl; [by apply wf_del_key|].
  by apply wf_pop_missing.
Qed.

Lemma wf_pop P ky d : Pile.wf P -> Pile.wf (Pile.pop P ky d).1.
Proof.
  intros Hwf. destruct ky as [k|i|s|ks]; simpl; try by apply wf_pop_one.
  - destruct (Progression.getitem_slice _ _) as [ks|[]]; simpl;
      try done; try by apply wf_pop_missing.
    apply wf_fold; [apply wf_del_key|done].
  - destruct (forallb _ _); simpl; [|by apply wf_pop_missing].
    apply wf_fold; [apply wf_del_key|done].
Qed.

Lemma wf_exec P o : Pile.wf P -> Pile.wf (Pile.exec P o).1.
Proof.
  intros Hwf. destruct o as [es|ks|ks|ky d|e|i e|es|Q|Q|Q]; simpl.
  - unfold Pile.include. destruct (forallb _ _); simpl; [|done].
    apply wf_fold; [apply wf_add_entity|done].
  - apply wf_fold; [apply wf_del_key|done].
  - unfold Pile.remove. destruct (forallb _ _); simpl; [|done].
    apply wf_fold; [apply wf_del_key|done].
  - by apply wf_pop.
  - unfold Pile.append, Pile.include. destruct (forallb _ _); simpl; [|done].
    by apply wf_add_entity.
  - by apply wf_insert.
  - unfold Pile.update. destruct (forallb _ _); simpl; [|done].
    apply wf_fold; [apply wf_set_entity|done].
  - apply wf_fold; [apply wf_add_entity|done].
  - apply wf_fold; [apply wf_del_key|done].
  - apply wf_fold; [apply wf_add_entity|].
    apply wf_fold; [apply wf_del_key|done].
Qed.

Lemma wf_exec_all P os : Pile.wf P -> Pile.wf (Pile.exec_all P os).
Proof.
  revert P. induction os as [|o os IH]; intros P HP; simpl; [done|].
  apply IH. by apply wf_exec.
Qed.


Lemma admissible_add_entity P e x :
  Pile.admissible (Pile.add_entity P e) x = Pile.admissible P x.
Proof. unfold Pile.add_entity. by destruct (pile_ P !! id_of e). Qed.

Lemma admissible_add_fold es P x :
  Pile.admissible (fold_left Pile.add_entity es P) x = Pile.admissible P x.
Proof.
  revert P. induction es as [|e es IH]; intros P; simpl; [done|].
  by rewrite IH, admissible_add_entity.
Qed.

Lemma add_entity_keeps P e k :
  is_Some (pile_ P !! k) -> is_Some (pile_ (Pile.add_entity P e) !! k).
Proof.
  unfold Pile.add_entity. destruct (pile_ P !! id_of e); [done|]. cbn [pile_].
  intros Hk. destruct (decide (id_of e = k)) as [->|Hne].
  - rewrite lookup_insert_eq. eauto.
  - by rewrite lookup_insert_ne.
Qed.

Lemma add_fold_keeps es P k :
  is_Some (pile_ P !! k) -> is_Some (pile_ (fold_left Pile.add_entity es P) !! k).
Proof.
  revert P. induction es as [|e es IH]; intros P Hk; simpl; [done|].
  apply IH, add_entity_keeps, Hk.
Qed.

Lemma add_fold_has es P e :
  e ∈ es -> is_Some (pile_ (fold_left Pile.add_entity es P) !! id_of e).
Proof.
  revert P. induction es as [|e' es IH]; intros P He; simpl; [set_solver|].
  apply elem_of_cons in He as [<-|He]; [|by apply IH].
  apply add_fold_keeps. unfold Pile.add_entity.
  destruct (pile_ P !! id_of e) eqn:E; [eauto|]. cbn [pile_].
  rewrite lookup_insert_eq. eauto.
Qed.

Lemma add_fold_present es P :
  (forall e, e ∈ es -> is_Some (pile_ P !! id_of e)) ->
  fold_left Pile.add_entity es P = P.
Proof.
  revert P. induction es as [|e es IH]; intros P Hall; simpl; [done|].
  unfold Pile.add_entity at 2.
  destruct (Hall e ltac:(set_solver)) as [v Hv]. rewrite Hv.
  apply IH. set_solver.
Qed.

Lemma union_insert_present (m1 m2 : gmap string A) i x :
  is_Some (m1 !! i) -> m1 ∪ <[i := x]> m2 = m1 ∪ m2.
Proof.
  intros [v Hv]. apply map_eq. intros j. rewrite !lookup_union.
  destruct (decide (i = j)) as [->|Hne].
  - rewrite Hv, lookup_insert_eq. by destruct (m2 !! j).
  - by rewrite lookup_insert_ne.
Qed.

Lemma add_fold_map es P :
  pile_ (fold_left Pile.add_entity es P) = pile_ P ∪ Pile.ltm es.
Proof.
  revert P. induction es as [|e es IH]; intros P; simpl.
  - unfold Pile.ltm. simpl. by rewrite map_union_empty.
  - rewrite IH. unfold Pile.ltm. cbn [map list_to_map foldr]. fold (Pile.ltm es).
    unfold Pile.add_entity. destruct (pile_ P !! id_of e) eqn:E.
    + symmetry. apply union_insert_present. eauto.
    + cbn [pile_]. rewrite <- insert_union_l, insert_union_r by done. done.
Qed.

Lemma values_ids Q : Pile.wf Q -> map id_of (Pile.values Q) = order Q.
Proof.
  intros (_ & Hdom & Hfa). unfold Pile.values.
  assert (Hall : forall k, k ∈ order Q -> exists e, pile_ Q !! k = Some e /\ id_of e = k).
  { intros k Hk. assert (Hd : k ∈ dom (pile_ Q)) by (rewrite Hdom, elem_of_list_to_set; done).
    apply elem_of_dom in Hd as [e He]. exists e. split; [done|]. by apply (Hfa k e). }
  clear Hdom. revert Hall. induction (order Q) as [|k ks IH]; intros Hall; simpl; [done|].
  destruct (Hall k ltac:(set_solver)) as (e & He & Hid). rewrite He. simpl.
  rewrite Hid. f_equal. apply IH. intros k' Hk'. apply Hall. set_solver.
Qed.

Lemma values_elem Q e : Pile.wf Q -> e ∈ Pile.values Q <-> pile_ Q !! id_of e = Some e.
Proof.
  intros Hwf. pose proof Hwf as (_ & Hdom & Hfa). unfold Pile.values.
  rewrite list_elem_of_omap. split.
  - intros (k & Hk & He). by rewrite (Hfa k e He).
  - intros He. exists (id_of e). split; [|done].
    apply (wf_mem Q); [done|]. eauto.
Qed.

Lemma ltm_values Q : Pile.wf Q -> Pile.ltm (Pile.values Q) = pile_ Q.
Proof.
  intros Hwf. apply map_eq. intros k. unfold Pile.ltm.
  assert (Hnd : NoDup (map (fun e => (id_of e, e)) (Pile.values Q)).*1).
  { assert (Hf : forall l : list A, (map (fun e => (id_of e, e)) l).*1 = map id_of l)
      by (intros l; induction l as [|x l IHl]; [done|]; cbn; by f_equal).
    rewrite Hf, values_ids by done. apply Hwf. }
  apply option_eq. intros e. rewrite <- elem_of_list_to_map by done.
  rewrite list_elem_of_fmap. split.
  - intros (e' & Heq & He'). injection Heq as -> ->. by apply values_elem.
  - intros He. pose proof Hwf as (_ & _ & Hfa). pose proof (Hfa k e He) as Hid.
    exists e. split; [by rewrite Hid|]. apply values_elem; [done|]. by rewrite Hid.
Qed.


Lemma or_map P Q : Pile.wf Q -> pile_ (Pile.or P Q) = pile_ P ∪ pile_ Q.
Proof. intros HQ. unfold Pile.or. by rewrite add_fold_map, ltm_values. Qed.

Lemma del_fold_lookup ks P k :
  pile_ (fold_left Pile.del_key ks P) !! k =
  if decide (k ∈ ks) then None else pile_ P !! k.
Proof.
  revert P. induction ks as [|k' ks IH]; intros P; cbn [fold_left].
  - by rewrite decide_False by set_solver.
  - rewrite IH. unfold Pile.del_key. cbn [pile_].
    destruct (decide (k ∈ ks)) as [Hin|Hnin].
    + by rewrite decide_True by set_solver.
    + destruct (decide (k' = k)) as [->|Hne].
      * rewrite decide_True by set_solver. apply lookup_delete_eq.
      * rewrite decide_False by set_solver. by apply lookup_delete_ne.
Qed.

Lemma and_lookup P Q k :
  Pile.wf P ->
  pile_ (Pile.and P Q) !! k =
  match pile_ Q !! k with None => None | Some _ => pile_ P !! k end.
Proof.
  intros HP. unfold Pile.and. rewrite del_fold_lookup.
  destruct (decide _) as [Hin|Hnin].
  - apply list_elem_of_filter in Hin as [Hq Hk].
    destruct (pile_ Q !! k) eqn:Eq; [|done]. exfalso.
    unfold Pile.has_key in Hq. rewrite Eq, bool_decide_eq_true_2 in Hq by eauto. exact Hq.
  - destruct (pile_ Q !! k) eqn:Eq; [done|].
    destruct (pile_ P !! k) eqn:Ep; [|done]. exfalso. apply Hnin.
    apply list_elem_of_filter. split.
    + unfold Pile.has_key. rewrite Eq, bool_decide_eq_false_2; [exact I|].
      by intros [? ?].
    + apply (wf_mem P); [done|]. eauto.
Qed.

Lemma add_fold_order es P :
  NoDup (map id_of es) -> (forall e, e ∈ es -> pile_ P !! id_of e = None) ->
  order (fold_left Pile.add_entity es P) = order P ++ map id_of es.
Proof.
  revert P. induction es as [|e es IH]; intros P Hnd Hfree; simpl.
  - by rewrite app_nil_r.
  - apply NoDup_cons in Hnd as [Hn Hnd].
    unfold Pile.add_entity at 2. rewrite Hfree by set_solver.
    rewrite IH; [cbn [order]; by rewrite <- app_assoc|done|].
    intros e' He'. cbn [pile_]. rewrite lookup_insert_ne; [by apply Hfree; set_solver|].
    intros Heq. apply Hn. rewrite Heq. apply list_elem_of_fmap. eauto.
Qed.

Lemma omap_lookup_ext (m1 m2 : gmap string A) (l : list string) :
  (forall k, k ∈ l -> m1 !! k = m2 !! k) ->
  omap (fun k => m1 !! k) l = omap (fun k => m2 !! k) l.
Proof.
  induction l as [|k l IH]; intros Hl; [done|].
  simpl. rewrite (Hl k) by set_solver.
  destruct (m2 !! k); [f_equal|]; apply IH; set_solver.
Qed.

Lemma values_add_entity P e :
  Pile.wf P -> pile_ P !! id_of e = None ->
  Pile.values (Pile.add_entity P e) = Pile.values P ++ [e].
Proof.
  intros HP Hn. unfold Pile.add_entity, Pile.values. rewrite Hn. cbn [pile_ order].
  rewrite omap_app. simpl. rewrite lookup_insert_eq. f_equal.
  apply omap_lookup_ext. intros k Hk. apply lookup_insert_ne.
  intros Heq. subst k. apply (wf_mem P (id_of e)) in Hk; [|done]. rewrite Hn in Hk. by destruct Hk.
Qed.


Lemma item_type_add_entity P e : item_type (Pile.add_entity P e) = item_type P.
Proof. unfold Pile.add_entity. by destruct (pile_ P !! id_of e). Qed.

Lemma forallb_admissible_add_fold es P (l : list A) :
  forallb (Pile.admissible (fold_left Pile.add_entity es P)) l = forallb (Pile.admissible P) l.
Proof.
  induction l as [|x l IH]; simpl; [done|]. by rewrite admissible_add_fold, IH.
Qed.


Lemma wf_or P Q : Pile.wf P -> Pile.wf (Pile.or P Q).
Proof. intros HP. unfold Pile.or. apply wf_fold; [|done]. intros ? ?. apply wf_add_entity. Qed.

Lemma wf_and P Q : Pile.wf P -> Pile.wf (Pile.and P Q).
Proof. intros HP. unfold Pile.and. apply wf_fold; [|done]. intros ? ?. apply wf_del_key. Qed.

(** Two well-formed Piles with the same mapping have orders that are
    permutations of each other. *)
Lemma wf_same_map_perm P Q :
  Pile.wf P -> Pile.wf Q -> pile_ P = pile_ Q -> order P ≡ₚ order Q.
Proof.
  intros HP HQ Hm. apply NoDup_Permutation; [apply HP|apply HQ|].
  intros k. rewrite (wf_mem P k HP), (wf_mem Q k HQ), Hm. done.
Qed.


(** The union of disjoint Piles lists the left operand, then the right one. *)
Lemma or_disjoint P Q :
  Pile.wf P -> Pile.wf Q -> (forall k, k ∈ order P -> k ∉ order Q) ->
  order (Pile.or P Q) = order P ++ order Q /\
  Pile.values (Pile.or P Q) = Pile.values P ++ Pile.values Q.
Proof.
  intros HP HQ Hdisj.
  assert (Hfree : forall k, k ∈ order Q -> pile_ P !! k = None).
  { intros k Hk. destruct (pile_ P !! k) eqn:E; [|done]. exfalso.
    apply (Hdisj k); [apply (wf_mem P k HP); eauto|done]. }
  assert (Hord : order (Pile.or P Q) = order P ++ order Q).
  { unfold Pile.or. rewrite add_fold_order.
    - by rewrite values_ids.
    - rewrite values_ids by done. apply HQ.
    - intros e He. apply Hfree. apply (wf_mem Q (id_of e) HQ).
      apply values_elem in He; [|done]. eauto. }
  split; [done|].
  unfold Pile.values at 1. rewrite Hord, or_map, omap_app by done. f_equal.
  - apply omap_lookup_ext. intros k Hk. apply lookup_union_l'.
    by apply (wf_mem P k HP).
  - apply omap_lookup_ext. intros k Hk. apply lookup_union_r. by apply Hfree.
Qed.

(** [filter] only looks at the elements of the list. *)
Lemma filter_ext_in (P1 P2 : string -> Prop) `{!forall x, Decision (P1 x)}
    `{!forall x, Decision (P2 x)} (l : list string) :
  (forall x, x ∈ l -> P1 x <-> P2 x) -> filter P1 l = filter P2 l.
Proof.
  induction l as [|x l IH]; intros Hext; [done|]. rewrite !filter_cons.
  rewrite IH by (intros y Hy; apply Hext; set_solver).
  destruct (decide (P1 x)) as [D1|D1], (decide (P2 x)) as [D2|D2]; try done;
    exfalso; [apply D2|apply D1]; apply Hext; set_solver.
Qed.

Lemma add_fold_order_gen es P :
  NoDup (map id_of es) ->
  order (fold_left Pile.add_entity es P) =
  order P ++ filter (fun k => pile_ P !! k = None) (map id_of es).
Proof.
  revert P. induction es as [|e es IH]; intros P Hnd; simpl.
  - by rewrite app_nil_r.
  - apply NoDup_cons in Hnd as [Hn Hnd]. rewrite filter_cons.
    unfold Pile.add_entity at 2.
    destruct (pile_ P !! id_of e) as [x|] eqn:E.
    + rewrite decide_False by congruence. by apply IH.
    + rewrite decide_True by done. rewrite IH by done. cbn [order pile_].
      rewrite <- app_assoc. f_equal. cbn [app]. f_equal.
      apply filter_ext_in. intros k Hk.
      rewrite lookup_insert_ne; [done|]. intros Heq. apply Hn. by rewrite Heq.
Qed.

(** [A | B] lists [A]'s Identifiers, then [B]'s that are not in [A]. *)
Lemma or_order P Q :
  Pile.wf P -> Pile.wf Q ->
  order (Pile.or P Q) = order P ++ filter (fun k => k ∉ order P) (order Q).
Proof.
  intros HP HQ. unfold Pile.or. rewrite add_fold_order_gen.
  - rewrite values_ids by done. f_equal. apply filter_ext_in. intros k _.
    rewrite (wf_mem P k HP). split; [intros E [? E']; congruence|].
    intros Hn. destruct (pile_ P !! k) eqn:E; [|done]. exfalso. eauto.
  - rewrite values_ids by done. apply HQ.
Qed.

Lemma del_fold_order ks P :
  order (fold_left Pile.del_key ks P) = filter (fun k => k ∉ ks) (order P).
Proof.
  revert P. induction ks as [|k ks IH]; intros P; simpl.
  - induction (order P) as [|x l IHl]; [done|]. rewrite filter_cons, decide_True by set_solver. by f_equal.
  - rewrite IH. unfold Pile.del_key. cbn [order]. rewrite list_filter_filter.
    apply list_filter_iff. intros x. set_solver.
Qed.

(** [A & B] lists [A]'s Identifiers that are in [B], in [A]'s order. *)
Lemma and_order P Q :
  Pile.wf Q ->
  order (Pile.and P Q) = filter (fun k => k ∈ order Q) (order P).
Proof.
  intros HQ. unfold Pile.and. rewrite del_fold_order. apply filter_ext_in.
  intros k Hk. rewrite list_elem_of_filter, (wf_mem Q k HQ).
  unfold Pile.has_key. destruct (pile_ Q !! k) eqn:E.
  - rewrite bool_decide_eq_true_2 by eauto. cbn. split; [eauto|tauto].
  - rewrite bool_decide_eq_false_2 by (intros [? ?]; congruence). cbn.
    split; [intros Hn; exfalso; by apply Hn|intros [? ?]; congruence].
Qed.

End PileFacts.
End PileFacts.

(** ** Exchange: facts *)
Module ExchangeFacts.
Import Exchange PileFacts.

Lemma drain_values mb r :
  (drain_outbound mb r).1 = Pile.values (default empty_queue (outbound mb !! r)).
Proof. unfold drain_outbound. by destruct (outbound mb !! r). Qed.

Lemma drain_twice_empty mb r : (drain_outbound (drain_outbound mb r).2 r).1 = [].
Proof.
  unfold drain_outbound. destruct (outbound mb !! r) eqn:E; simpl; [|by rewrite E].
  by rewrite lookup_insert_eq.
Qed.

Lemma send_valid mb p q :
  recipient p <> "" -> sender p <> "" -> sender p <> recipient p ->
  default empty_queue (outbound mb !! recipient p) = q -> Pile.admissible q p = true ->
  send mb p = (mkMailbox (inbound mb) (<[recipient p := Pile.add_entity q p]> (outbound mb)), None).
Proof.
  intros Hr Hs Hsr Hq Hadm. unfold send.
  rewrite bool_decide_eq_false_2 by tauto. rewrite Hq.
  unfold Pile.append, Pile.include. simpl. rewrite Hadm. done.
Qed.

Lemma send_all_queue ps mb r q :
  default empty_queue (outbound mb !! r) = q -> Pile.wf q ->
  Forall (fun p => Pile.admissible q p = true) ps -> r <> "" ->
  Forall (fun p => recipient p = r /\ sender p <> "" /\ sender p <> r) ps ->
  NoDup (map id_of ps) -> (forall p, p ∈ ps -> pile_ q !! id_of p = None) ->
  exists mb', send_all mb ps = (mb', None) /\
    Pile.values (default empty_queue (outbound mb' !! r)) = Pile.values q ++ ps.
Proof.
  revert mb q. induction ps as [|p ps IH]; intros mb q Hq Hwf Hit Hr Hok Hnd Hfree.
  - exists mb. split; [done|]. rewrite Hq. by rewrite app_nil_r.
  - apply Forall_cons in Hok as [(Hrp & Hs & Hsr) Hok].
    apply NoDup_cons in Hnd as [Hn Hnd]. apply Forall_cons in Hit as [Hp Hit]. simpl.
    rewrite (send_valid mb p q) by (rewrite ?Hrp; done).
    destruct (IH (mkMailbox (inbound mb) (<[recipient p := Pile.add_entity q p]> (outbound mb)))
                (Pile.add_entity q p)) as (mb' & Hs' & Hv).
    + simpl. by rewrite Hrp, lookup_insert_eq.
    + by apply wf_add_entity.
    + eapply Forall_impl; [exact Hit|]. intros x Hx. by rewrite admissible_add_entity.
    + done.
    + done.
    + done.
    + intros p' Hp'. unfold Pile.add_entity. rewrite Hfree by set_solver. cbn [pile_].
      rewrite lookup_insert_ne; [apply Hfree; set_solver|].
      intros Heq. apply Hn. rewrite Heq. apply list_elem_of_fmap. eauto.
    + exists mb'. split; [done|]. rewrite Hv.
      rewrite values_add_entity by (try apply Hfree; set_solver).
      by rewrite <- app_assoc.
Qed.


Lemma drain_leaves_empty mb r :
  default empty_queue (outbound (drain_outbound mb r).2 !! r) = empty_queue.
Proof.
  unfold drain_outbound. destruct (outbound mb !! r) eqn:E; simpl; [|by rewrite E].
  by rewrite lookup_insert_eq.
Qed.

Lemma drain_nothing_queued mb r : outbound mb !! r = None -> drain_outbound mb r = ([], mb).
Proof. intros E. unfold drain_outbound. by rewrite E. Qed.

End ExchangeFacts.

(** ** The claims about Pile and Exchange *)
Module Claims.
Import Exchange PileFacts ExchangeFacts Samples.


(** C1 *)
(** Claim C1: for a well-formed Pile, after any sequence of mutating calls
    (include, exclude, remove, pop, append, insert, update and the in-place
    set algebra), including calls that raise, the Identifiers of the order
    are exactly the keys of the mapping and the order is as long as the
    mapping is large. *)
Theorem pile_order_map_consistent {A} `{Identifiable A} (P : Pile A) (os : list Pile.op) :
  Pile.wf P ->
  (forall k, k ∈ order (Pile.exec_all P os) <-> k ∈ dom (pile_ (Pile.exec_all P os))) /\
  length (order (Pile.exec_all P os)) = size (pile_ (Pile.exec_all P os)).
Proof.
  intros HP. pose proof (wf_exec_all P os HP) as Hwf. split.
  - intros k. rewrite elem_of_dom. by apply wf_mem.
  - by apply wf_size.
Qed.

Lemma pile_order_map_consistent_witness :
  let P := pile_of [el "a" 0; el "b" 1] in
  let os := [Pile.OpInclude [el "c" 2]; Pile.OpRemove ["zz"];
             Pile.OpIxor (pile_of [el "b" 1; el "d" 3]); Pile.OpPop (KIdx 0) None;
             Pile.OpInsert 9 (el "e" 4); Pile.OpInclude [el "f" 5; el "g" 6];
             Pile.OpPop (KSlice (mkSlice (Some 1%Z) (Some 3%Z) None)) None;
             Pile.OpPop (KList ["zz"; "g"]) None; Pile.OpPop (KList ["g"; "d"]) None;
             Pile.OpIand (pile_of [el "d" 3])] in
  Pile.wf P /\
  ((forall k, k ∈ order (Pile.exec_all P os) <-> k ∈ dom (pile_ (Pile.exec_all P os))) /\
   length (order (Pile.exec_all P os)) = size (pile_ (Pile.exec_all P os))).
Proof.
  intros P os. split.
  - decide_by_eval.
  - apply pile_order_map_consistent.
    decide_by_eval.
Defined.

(** C8 *)
(** Claim C8: [include(x)] is idempotent for a Progression and for a Pile:
    including [x] twice gives the very same structure (keys, order and
    entities) as including it once; and an element is added only when its
    Identifier is absent. *)
Theorem include_idempotent {A} `{Identifiable A} :
  (forall (o : list string) (it : list item),
     Progression.include (Progression.include o it) it = Progression.include o it /\
     (forall i, Progression.include o [i] =
        if py_in (get_id i) o then o else o ++ [get_id i])) /\
  (forall (P : Pile A) (es : list A),
     (Pile.include (Pile.include P es).1 es).1 = (Pile.include P es).1) /\
  (forall (P : Pile A) (e : A),
     is_Some (pile_ P !! id_of e) -> (Pile.include P [e]).1 = P).
Proof.
  split; [|split].
  - intros o it. apply ProgressionFacts.prog_include_idempotent.
  - intros P es. unfold Pile.include at 2.
    destruct (forallb (Pile.admissible P) es) eqn:Hadm; cbn [fst].
    + unfold Pile.include. rewrite forallb_admissible_add_fold, Hadm. cbn [fst].
      apply add_fold_present. intros e He. by apply add_fold_has.
    + unfold Pile.include. by rewrite Hadm.
  - intros P e Hk. unfold Pile.include.
    destruct (forallb _ _); cbn [fst]; [|done].
    apply add_fold_present. intros e' He'.
    apply list_elem_of_singleton in He'. by subst e'.
Qed.

Lemma include_idempotent_witness :
  is_Some (pile_ (pile_of [el "a" 0; el "b" 1]) !! id_of (el "a" 0)) /\
  (Pile.include (pile_of [el "a" 0; el "b" 1]) [el "a" 0]).1 = pile_of [el "a" 0; el "b" 1].
Proof.
  split.
  - vm_compute. eexists. reflexivity.
  - apply (proj2 (proj2 (include_idempotent (A:=Element)))). vm_compute. eexists. reflexivity.
Defined.

(** C4 *)
(** Claim C4 fails with Pile equality comparing the orders: [A | B] lists
    [A]'s Identifiers first and [B | A] lists [B]'s first, and [A & B]
    keeps [A]'s order while [B & A] keeps [B]'s. *)
Lemma set_algebra_not_commutative :
  ~ Pile.equal (Pile.or (pile_of [el "e0" 0]) (pile_of [el "e1" 1]))
               (Pile.or (pile_of [el "e1" 1]) (pile_of [el "e0" 0])) /\
  ~ Pile.equal (Pile.and (pile_of [el "e0" 0; el "e1" 1]) (pile_of [el "e1" 1; el "e0" 0]))
               (Pile.and (pile_of [el "e1" 1; el "e0" 0]) (pile_of [el "e0" 0; el "e1" 1])).
Proof.
  unfold Pile.equal. split; vm_compute; intros [Ho _]; discriminate Ho.
Qed.

(** C4 (amended) *)
(** Amended claim C4: for well-formed Piles [A] and [B] that hold the same
    entity under every shared Identifier, [A | B] and [B | A] have the same
    mapping and orders that are permutations of each other; likewise for
    [A & B] and [B & A].  [A | B] lists [A]'s Identifiers, then [B]'s that
    are not in [A]; [A & B] lists [A]'s Identifiers that are in [B], in
    [A]'s order; so each equation holds exactly when the two orders
    coincide. *)
Theorem set_algebra_commutative_up_to_order {A} `{Identifiable A} (P Q : Pile A) :
  Pile.wf P -> Pile.wf Q ->
  (forall k x y, pile_ P !! k = Some x -> pile_ Q !! k = Some y -> x = y) ->
  (pile_ (Pile.or P Q) = pile_ (Pile.or Q P) /\ order (Pile.or P Q) ≡ₚ order (Pile.or Q P)) /\
  (pile_ (Pile.and P Q) = pile_ (Pile.and Q P) /\ order (Pile.and P Q) ≡ₚ order (Pile.and Q P)) /\
  (order (Pile.or P Q) = order P ++ filter (fun k => k ∉ order P) (order Q) /\
   order (Pile.and P Q) = filter (fun k => k ∈ order Q) (order P)) /\
  (Pile.equal (Pile.or P Q) (Pile.or Q P) <-> order (Pile.or P Q) = order (Pile.or Q P)) /\
  (Pile.equal (Pile.and P Q) (Pile.and Q P) <-> order (Pile.and P Q) = order (Pile.and Q P)).
Proof.
  intros HP HQ Hagree.
  assert (Hor : pile_ (Pile.or P Q) = pile_ (Pile.or Q P)).
  { rewrite !or_map by done. apply map_eq. intros k. rewrite !lookup_union.
    destruct (pile_ P !! k) as [x|] eqn:Ep, (pile_ Q !! k) as [y|] eqn:Eq; try done.
    by rewrite (Hagree k x y Ep Eq). }
  assert (Hand : pile_ (Pile.and P Q) = pile_ (Pile.and Q P)).
  { apply map_eq. intros k. rewrite !and_lookup by done.
    destruct (pile_ P !! k) as [x|] eqn:Ep, (pile_ Q !! k) as [y|] eqn:Eq; try done.
    f_equal. eauto. }
  unfold Pile.equal. rewrite Hor, Hand.
  split; [|split; [|split; [split; [by apply or_order|by apply and_order]|]]].
  - split; [done|]. apply wf_same_map_perm; try done; by apply wf_or.
  - split; [done|]. apply wf_same_map_perm; try done; by apply wf_and.
  - split; split; tauto.
Qed.

Lemma set_algebra_commutative_up_to_order_witness :
  let P := pile_of [el "e0" 0; el "e1" 1] in
  let Q := pile_of [el "e1" 1; el "e2" 2] in
  Pile.wf P /\ Pile.wf Q /\
  (forall k x y, pile_ P !! k = Some x -> pile_ Q !! k = Some y -> x = y) /\
  ((pile_ (Pile.or P Q) = pile_ (Pile.or Q P) /\ order (Pile.or P Q) ≡ₚ order (Pile.or Q P)) /\
   (pile_ (Pile.and P Q) = pile_ (Pile.and Q P) /\ order (Pile.and P Q) ≡ₚ order (Pile.and Q P)) /\
   (order (Pile.or P Q) = order P ++ filter (fun k => k ∉ order P) (order Q) /\
    order (Pile.and P Q) = filter (fun k => k ∈ order Q) (order P)) /\
   (Pile.equal (Pile.or P Q) (Pile.or Q P) <-> order (Pile.or P Q) = order (Pile.or Q P)) /\
   (Pile.equal (Pile.and P Q) (Pile.and Q P) <-> order (Pile.and P Q) = order (Pile.and Q P))).
Proof.
  intros P Q.
  assert (HP : Pile.wf P) by decide_by_eval.
  assert (HQ : Pile.wf Q) by decide_by_eval.
  assert (Hag : forall k x y, pile_ P !! k = Some x -> pile_ Q !! k = Some y -> x = y).
  { assert (Hm : map_Forall (fun k x => pile_ Q !! k = None \/ pile_ Q !! k = Some x) (pile_ P))
      by decide_by_eval.
    intros k x y Hx Hy. destruct (map_Forall_lookup_1 _ _ _ _ Hm Hx) as [Hn|Hs]; congruence. }
  split; [done|]. split; [done|]. split; [done|].
  apply set_algebra_commutative_up_to_order; done.
Defined.

(** C5 *)
(** Claim C5: when the references [r1] and [r2] hold disjoint well-formed
    Piles of four entities each, [p1 |= p2] makes [p1] hold eight entities,
    those of [p1] in their order followed by those of [p2], and leaves the
    Pile at [r2] unchanged. *)
Theorem ior_in_place_frame (h : gmap nat (Pile Element)) (r1 r2 : nat) (P1 P2 : Pile Element) :
  r1 <> r2 -> h !! r1 = Some P1 -> h !! r2 = Some P2 ->
  Pile.wf P1 -> Pile.wf P2 ->
  length (order P1) = 4 -> length (order P2) = 4 ->
  (forall k, k ∈ order P1 -> k ∉ order P2) ->
  (exists P1', PileHeap.ior_ref h r1 r2 !! r1 = Some P1' /\
     order P1' = order P1 ++ order P2 /\
     Pile.values P1' = Pile.values P1 ++ Pile.values P2 /\
     length (order P1') = 8 /\ size (pile_ P1') = 8) /\
  PileHeap.ior_ref h r1 r2 !! r2 = Some P2.
Proof.
  intros Hne H1 H2 HP1 HP2 Hl1 Hl2 Hdisj.
  unfold PileHeap.ior_ref. rewrite H1, H2. cbn [Pile.ior fst]. split.
  - exists (Pile.or P1 P2). rewrite lookup_insert_eq.
    destruct (or_disjoint P1 P2 HP1 HP2 Hdisj) as [Ho Hv].
    assert (Hlen : length (order (Pile.or P1 P2)) = 8) by (rewrite Ho, length_app; lia).
    repeat split; try done.
    rewrite <- (wf_size (Pile.or P1 P2)) by (by apply wf_or). done.
  - by rewrite lookup_insert_ne.
Qed.

Lemma ior_in_place_frame_witness :
  let P1 := pile_of [el "p0" 0; el "p1" 1; el "p2" 2; el "p3" 3] in
  let P2 := pile_of [el "p4" 4; el "p5" 5; el "p6" 6; el "p7" 7] in
  let h : gmap nat (Pile Element) := <[1 := P1]> {[2 := P2]} in
  1 <> 2 /\ h !! 1 = Some P1 /\ h !! 2 = Some P2 /\ Pile.wf P1 /\ Pile.wf P2 /\
  length (order P1) = 4 /\ length (order P2) = 4 /\
  (forall k, k ∈ order P1 -> k ∉ order P2) /\
  ((exists P1', PileHeap.ior_ref h 1 2 !! 1 = Some P1' /\
     order P1' = order P1 ++ order P2 /\
     Pile.values P1' = Pile.values P1 ++ Pile.values P2 /\
     length (order P1') = 8 /\ size (pile_ P1') = 8) /\
   PileHeap.ior_ref h 1 2 !! 2 = Some P2).
Proof.
  intros P1 P2 h.
  assert (HP1 : Pile.wf P1) by decide_by_eval.
  assert (HP2 : Pile.wf P2) by decide_by_eval.
  assert (Hd : forall k, k ∈ order P1 -> k ∉ order P2).
  { assert (Hb : Forall (fun k => k ∉ order P2) (order P1))
      by decide_by_eval.
    intros k Hk. rewrite Forall_forall in Hb. by apply Hb. }
  assert (H1 : h !! 1 = Some P1) by reflexivity.
  assert (H2 : h !! 2 = Some P2) by reflexivity.
  assert (L1 : length (order P1) = 4) by (vm_compute; reflexivity).
  assert (L2 : length (order P2) = 4) by (vm_compute; reflexivity).
  do 8 (split; [first [lia | done]|]).
  apply ior_in_place_frame; first [lia | done].
Defined.

(** C6 *)
(** Claim C6 fails for a mailbox that already has a Package queued for the
    recipient: after sending [p1], [p2], [p3] the drain returns the earlier
    Package first, then [p1], [p2], [p3]. *)
Lemma drain_includes_pending :
  match send_all (mkMailbox empty_queue {["r" := queue_of [pk "pk0" 0]]})
          [pk "pk1" 1; pk "pk2" 2; pk "pk3" 3] with
  | (mb', None) =>
      (drain_outbound mb' "r").1 = [pk "pk0" 0; pk "pk1" 1; pk "pk2" 2; pk "pk3" 3]
  | (_, Some _) => False
  end.
Proof. vm_compute. reflexivity. Qed.

(** C6 (amended) *)
(** Amended claim C6: for a well-formed queue for [r] that admits Packages
    (as the empty queue [send] creates does), sending [p1], [p2], [p3]
    (valid, with distinct new Identifiers) to [r] succeeds, and draining
    [r] then returns the Packages queued for [r] before the sends followed
    by [p1], [p2], [p3], leaves
    [r]'s queue empty, and a further drain returns the empty list; a drain
    with no queue for [r] returns the empty list and changes nothing. *)
Theorem send_drain_fifo (mb : Mailbox) (r : string) (q : Pile Package) (p1 p2 p3 : Package) :
  default empty_queue (outbound mb !! r) = q -> Pile.wf q ->
  Forall (fun p => Pile.admissible q p = true) [p1; p2; p3] -> r <> "" ->
  Forall (fun p => recipient p = r /\ sender p <> "" /\ sender p <> r) [p1; p2; p3] ->
  NoDup (map id_of [p1; p2; p3]) ->
  (forall p, p ∈ [p1; p2; p3] -> pile_ q !! id_of p = None) ->
  (exists mb', send_all mb [p1; p2; p3] = (mb', None) /\
     (drain_outbound mb' r).1 = Pile.values q ++ [p1; p2; p3] /\
     default empty_queue (outbound (drain_outbound mb' r).2 !! r) = empty_queue /\
     (drain_outbound (drain_outbound mb' r).2 r).1 = []) /\
  (forall mb0, outbound mb0 !! r = None -> drain_outbound mb0 r = ([], mb0)).
Proof.
  intros Hq Hwf Hit Hr Hok Hnd Hfree. split.
  - destruct (send_all_queue [p1; p2; p3] mb r q Hq Hwf Hit Hr Hok Hnd Hfree)
      as (mb' & Hs & Hv).
    exists mb'. split; [done|]. split; [by rewrite drain_values|]. split.
    + apply drain_leaves_empty.
    + apply drain_twice_empty.
  - intros mb0. apply drain_nothing_queued.
Qed.

Lemma send_drain_fifo_witness :
  let mb := mkMailbox empty_queue {["r" := queue_of [pk "pk0" 0]]} in
  let ps := [pk "pk1" 1; pk "pk2" 2; pk "pk3" 3] in
  default empty_queue (outbound mb !! "r") = queue_of [pk "pk0" 0] /\
  Pile.wf (queue_of [pk "pk0" 0]) /\
  Forall (fun p => Pile.admissible (queue_of [pk "pk0" 0]) p = true) ps /\ "r" <> "" /\
  Forall (fun p => recipient p = "r" /\ sender p <> "" /\ sender p <> "r") ps /\
  NoDup (map id_of ps) /\
  (forall p, p ∈ ps -> pile_ (queue_of [pk "pk0" 0]) !! id_of p = None) /\
  ((exists mb', send_all mb ps = (mb', None) /\
     (drain_outbound mb' "r").1 = Pile.values (queue_of [pk "pk0" 0]) ++ ps /\
     default empty_queue (outbound (drain_outbound mb' "r").2 !! "r") = empty_queue /\
     (drain_outbound (drain_outbound mb' "r").2 "r").1 = []) /\
   (forall mb0, outbound mb0 !! "r" = None -> drain_outbound mb0 "r" = ([], mb0))).
Proof.
  intros mb ps.
  assert (H1 : default empty_queue (outbound mb !! "r") = queue_of [pk "pk0" 0])
    by reflexivity.
  assert (H2 : Pile.wf (queue_of [pk "pk0" 0])) by decide_by_eval.
  assert (H3 : Forall (fun p => Pile.admissible (queue_of [pk "pk0" 0]) p = true) ps)
    by decide_by_eval.
  assert (H4 : "r" <> "") by discriminate.
  assert (H5 : Forall (fun p => recipient p = "r" /\ sender p <> "" /\ sender p <> "r") ps)
    by decide_by_eval.
  assert (H6 : NoDup (map id_of ps)) by decide_by_eval.
  assert (H7 : forall p, p ∈ ps -> pile_ (queue_of [pk "pk0" 0]) !! id_of p = None).
  { assert (Hb : Forall (fun p => pile_ (queue_of [pk "pk0" 0]) !! id_of p = None) ps)
      by decide_by_eval.
    intros p Hp. rewrite Forall_forall in Hb. by apply Hb. }
  do 7 (split; [assumption|]).
  apply (send_drain_fifo mb "r" (queue_of [pk "pk0" 0])); assumption.
Defined.

End Claims.

(** ** Progression: further properties of the code *)
Module ProgressionExtra.
Import Progression ProgressionFacts.

Lemma contains_one_item order (i : item) :
  contains order (AOne i) = py_in (get_id i) order.
Proof.
  unfold contains. destruct order as [|o os]; [done|]. simpl.
  destruct i; simpl; by destruct (py_in _ (o :: os)).
Qed.

Lemma py_list_remove_perm x l l' : py_list_remove x l = Some l' -> l ≡ₚ x :: l'.
Proof.
  intros H. destruct (py_list_remove_first _ _ _ H) as (l1 & l2 & -> & _ & ->).
  by rewrite Permutation_middle.
Qed.

Lemma remove_each_perm ids l l' : remove_each ids l = Some l' -> l ≡ₚ ids ++ l'.
Proof.
  revert l. induction ids as [|i ids IH]; intros l H; simpl in H.
  - by injection H as ->.
  - destruct (py_list_remove i l) as [m|] eqn:E; [|done].
    rewrite (py_list_remove_perm _ _ _ E), (IH _ H). done.
Qed.

Lemma remove_each_complete ids l rest :
  l ≡ₚ ids ++ rest -> exists l', remove_each ids l = Some l'.
Proof.
  revert l. induction ids as [|i ids IH]; intros l Hp; simpl; [eauto|].
  assert (Hi : i ∈ l) by (rewrite Hp; set_solver).
  destruct (py_list_remove_present _ _ Hi) as [m Hm]. rewrite Hm.
  apply IH. apply (Permutation_cons_inv (a:=i)).
  by rewrite <- (py_list_remove_perm _ _ _ Hm).
Qed.

Lemma py_list_remove_snoc x l :
  py_list_remove x (l ++ [x]) =
  Some (match py_list_remove x l with Some l' => l' ++ [x] | None => l end).
Proof.
  induction l as [|y l IH]; simpl; [by rewrite decide_True|].
  destruct (decide (x = y)); [done|]. rewrite IH.
  by destruct (py_list_remove x l).
Qed.

Lemma include_fold_shape ids (o : list string) :
  exists added, fold_left include_step ids o = o ++ added /\ NoDup added /\
    (forall x, x ∈ added <-> x ∈ ids /\ x ∉ o).
Proof.
  revert o. induction ids as [|i ids IH]; intros o; simpl.
  - exists []. rewrite app_nil_r. split; [done|]. split; [constructor|].
    intros x. split; [intros Hx; by apply not_elem_of_nil in Hx|intros [Hx _]; by apply not_elem_of_nil in Hx].
  - unfold include_step at 2. destruct (py_in i o) eqn:Ei.
    + apply py_in_spec in Ei. destruct (IH o) as (added & -> & Hnd & Hm).
      exists added. split; [done|]. split; [done|].
      intros x. rewrite Hm, elem_of_cons. split.
      * intros [Hx Hn]. auto.
      * intros [[->|Hx] Hn]; [done|auto].
    + assert (Hn : i ∉ o) by (intros Hi; apply py_in_spec in Hi; congruence).
      destruct (IH (o ++ [i])) as (added & -> & Hnd & Hm).
      exists (i :: added). rewrite <- app_assoc. split; [done|]. split.
      * constructor; [|done]. rewrite Hm. intros [_ Hi]. apply Hi, elem_of_app. right.
        by apply list_elem_of_singleton.
      * intros x. rewrite !elem_of_cons, Hm, elem_of_app, list_elem_of_singleton. split.
        -- intros [->|[Hx Hno]]; [auto|]. split; [auto|]. intros Ho. apply Hno. auto.
        -- intros [[->|Hx] Hno]; [auto|].
           destruct (decide (x = i)) as [->|Hxi]; [auto|]. right. split; [done|].
           intros [Ho| ->]; [done|done].
Qed.

(** X1 *)
(** The containment test on a non-empty Progression: a single Identifier or
    Element is contained when its Identifier occurs in the order; a list is
    contained when it is non-empty and every Identifier in it occurs. *)
Theorem contains_characterised order (i : item) (its : list item) :
  (contains order (AOne i) = true <-> get_id i ∈ order) /\
  (order <> [] ->
     contains order (AList its) = true <-> its <> [] /\ Forall (fun j => get_id j ∈ order) its).
Proof.
  split.
  - rewrite contains_one_item. apply py_in_spec.
  - intros Hne. rewrite contains_list. naive_solver.
Qed.

(** X2 *)
(** [remove(x)] succeeds exactly when [x] is non-empty and its Identifiers,
    counted with multiplicity, all occur in the order; on success the new
    order together with the removed Identifiers is a permutation of the old
    one.  So [remove([])] and a repeated Identifier occurring once raise. *)
Theorem remove_succeeds_iff_submultiset order (it : list item) :
  ((exists o', remove order it = (o', None)) <->
     it <> [] /\ exists rest, order ≡ₚ validate_order it ++ rest) /\
  (forall o', remove order it = (o', None) -> order ≡ₚ validate_order it ++ o').
Proof.
  assert (Hperm : forall o', remove order it = (o', None) -> order ≡ₚ validate_order it ++ o').
  { intros o'. unfold remove. destruct (contains order (AList it)); [|congruence].
    destruct (remove_each (validate_order it) order) eqn:E; [|congruence].
    intros [= <-]. by apply remove_each_perm. }
  split; [|exact Hperm]. split.
  - intros [o' Ho]. split.
    + intros ->. unfold remove in Ho. rewrite (proj2 (contains_none_and_empty_false order)) in Ho.
      congruence.
    + exists o'. by apply Hperm.
  - intros [Hne [rest Hp]].
    assert (Hc : contains order (AList it) = true).
    { apply contains_list. split; [|split; [done|]].
      - destruct it as [|i it']; [done|]. intros ->.
        apply Permutation_nil in Hp. simpl in Hp. discriminate Hp.
      - apply Forall_forall. intros j Hj. rewrite Hp. apply elem_of_app. left.
        apply list_elem_of_fmap. eauto. }
    destruct (remove_each_complete _ _ _ Hp) as [l' Hl'].
    exists l'. unfold remove. by rewrite Hc, Hl'.
Qed.

Lemma remove_succeeds_iff_submultiset_witness :
  ["a"; "b"] ≡ₚ validate_order [IStr "b"] ++ ["a"] /\
  remove ["a"; "b"] [IStr "b"] = (["a"], None) /\
  ["a"; "b"] ≡ₚ validate_order [IStr "b"] ++ ["a"].
Proof.
  assert (Hp : ["a"; "b"] ≡ₚ validate_order [IStr "b"] ++ ["a"]) by (simpl; apply perm_swap).
  assert (Hr : remove ["a"; "b"] [IStr "b"] = (["a"], None)) by reflexivity.
  split; [exact Hp|]. split; [exact Hr|].
  apply (proj2 (remove_succeeds_iff_submultiset ["a"; "b"] [IStr "b"])). exact Hr.
Defined.

(** The Identifiers [include] appends: each one of [ids] at its first
    occurrence there, when it is not in [o]. *)
Lemma include_first_occurrences ids (o : list string) :
  fold_left include_step ids o =
  o ++ concat (imap (fun j x => if bool_decide ((x ∉ o) /\ (x ∉ take j ids)) then [x] else []) ids).
Proof.
  induction ids as [|y l IH] using rev_ind; [by rewrite app_nil_r|].
  rewrite fold_left_app, imap_app, concat_app.
  rewrite (imap_ext _ (fun j x => if bool_decide ((x ∉ o) /\ (x ∉ take j l)) then [x] else []) l).
  2:{ intros j x Hj. apply lookup_lt_Some in Hj. by rewrite take_app_le by lia. }
  destruct (include_fold_shape l o) as (added & Heq & _ & Hm).
  rewrite IH in Heq. apply app_inv_head in Heq.
  rewrite IH, Heq. cbn [fold_left imap concat].
  rewrite Nat.add_0_r, take_app_length, app_nil_r. unfold include_step.
  destruct (py_in y (o ++ added)) eqn:E.
  - apply py_in_spec in E. rewrite bool_decide_eq_false_2; [by rewrite !app_nil_r|].
    intros [Hy1 Hy2]. apply elem_of_app in E as [E|E]; [done|].
    apply Hm in E as [E _]. done.
  - rewrite bool_decide_eq_true_2; [by rewrite <- app_assoc|].
    assert (Hn : y ∉ o ++ added) by (intros Hy; apply py_in_spec in Hy; congruence).
    split; [intros Hy; apply Hn, elem_of_app; by left|].
    intros Hy. destruct (decide (y ∈ o)) as [Ho|Ho]; apply Hn, elem_of_app; [by left|].
    right. by apply Hm.
Qed.

(** X3 *)
(** [include(x)] keeps the old order as a prefix and appends, once each and
    in the order of [x], exactly the Identifiers of [x] that were absent:
    the appended list holds the Identifier at position [j] of [x] exactly
    when it is absent from the order and from [x]'s first [j] positions.  A
    duplicate-free order stays duplicate-free. *)
Theorem include_appends_missing_once order (it : list item) :
  (exists added, include order it = order ++ added /\
     added = concat (imap (fun j x =>
               if bool_decide ((x ∉ order) /\ (x ∉ take j (validate_order it))) then [x] else [])
               (validate_order it)) /\
     NoDup added /\
     (forall x, x ∈ added <-> x ∈ validate_order it /\ x ∉ order)) /\
  (NoDup order -> NoDup (include order it)).
Proof.
  destruct (include_fold_shape (validate_order it) order) as (added & Heq & Hnd & Hm).
  pose proof (include_first_occurrences (validate_order it) order) as Hf.
  rewrite Heq in Hf. apply app_inv_head in Hf.
  unfold include. rewrite Heq. split; [eauto 10|].
  intros Ho. apply NoDup_app. split; [done|]. split; [|done].
  intros x Hx Ha. apply Hm in Ha as [_ Hn]. done.
Qed.

Lemma include_appends_missing_once_witness :
  NoDup ["a"; "b"] /\ NoDup (include ["a"; "b"] [IStr "c"; IStr "a"; IStr "c"]).
Proof.
  assert (H : NoDup ["a"; "b"]) by decide_by_eval.
  split; [exact H|].
  apply (proj2 (include_appends_missing_once ["a"; "b"] [IStr "c"; IStr "a"; IStr "c"])).
  exact H.
Defined.

(** X4 *)
(** [append(x)] followed by [remove(x)] for one item: when the Identifier
    was absent the order is restored; when it was present, [remove] drops
    the earlier occurrence and the appended one stays at the end. *)
Theorem append_then_remove order (i : item) :
  remove (append order [i]) [i] =
  (match py_list_remove (get_id i) order with
   | Some o' => o' ++ [get_id i]
   | None => order
   end, None).
Proof.
  unfold remove, append. cbn [validate_order map].
  assert (Hc : contains (order ++ [get_id i]) (AList [i]) = true).
  { apply contains_list. split; [|split; [done|]].
    - intros Hn. apply app_eq_nil in Hn as [_ Hn]. discriminate.
    - constructor; [|constructor]. apply elem_of_app. right. by apply list_elem_of_singleton. }
  rewrite Hc. cbn [remove_each]. by rewrite py_list_remove_snoc.
Qed.

(** X5 *)
(** After [include(x)] with [x] non-empty, [x in p] holds; after
    [exclude(x)], no item of [x] is in [p]. *)
Theorem include_then_contains_exclude_then_not order (it : list item) :
  (it <> [] -> contains (include order it) (AList it) = true) /\
  (forall i, i ∈ it -> contains (exclude order it).1 (AOne i) = false).
Proof.
  split.
  - intros Hne. apply contains_list. split; [|split; [done|]].
    + destruct it as [|j it']; [done|]. intros Hn.
      assert (Hj : get_id j ∈ include order (j :: it')).
      { unfold include. apply include_fold_adds. cbn. set_solver. }
      rewrite Hn in Hj. by apply not_elem_of_nil in Hj.
    + apply Forall_forall. intros j Hj. unfold include. apply include_fold_adds.
      apply list_elem_of_fmap. eauto.
  - intros i Hi. unfold exclude. rewrite exclude_loop_spec. cbn [fst].
    rewrite contains_one_item. apply bool_decide_eq_false_2.
    rewrite list_elem_of_filter. intros [Hn _]. apply Hn.
    apply list_elem_of_fmap. eauto.
Qed.

Lemma include_then_contains_exclude_then_not_witness :
  [IStr "c"] <> [] /\ contains (include ["a"; "b"] [IStr "c"]) (AList [IStr "c"]) = true.
Proof.
  split; [discriminate|].
  apply (proj1 (include_then_contains_exclude_then_not ["a"; "b"] [IStr "c"])). discriminate.
Defined.

(** X6 *)
(** [exclude] calls commute, and excluding the same input twice is the same
    as once. *)
Theorem exclude_commutes_and_idempotent order (a b : list item) :
  exclude (exclude order a).1 b = exclude (exclude order b).1 a /\
  exclude (exclude order a).1 a = exclude order a.
Proof.
  unfold exclude. rewrite !exclude_loop_spec. cbn [fst]. split.
  - rewrite !list_filter_filter. f_equal. apply list_filter_iff. naive_solver.
  - rewrite list_filter_filter. f_equal. apply list_filter_iff. naive_solver.
Qed.

Lemma py_list_insert_at_pos (l : list string) index x k :
  py_insert_pos (length l) index = k ->
  py_list_insert l index x = take k l ++ x :: drop k l.
Proof. intros Hk. unfold py_list_insert. by rewrite Hk. Qed.

Lemma insert_fold_negative (o : list string) (m : Z) (acc L : list string) :
  (1 <= m <= Z.of_nat (length o))%Z ->
  let p := Z.to_nat (Z.of_nat (length o) - m) in
  fold_left (fun o' i => py_list_insert o' (- m) i) L (take p o ++ acc ++ drop p o) =
  take p o ++ acc ++ L ++ drop p o.
Proof.
  intros Hm p. assert (Hp : length (take p o) = p) by (apply length_take_le; lia).
  revert acc. induction L as [|x L IH]; intros acc; cbn [fold_left]; [done|].
  rewrite (py_list_insert_at_pos _ _ _ (p + length acc)).
  - rewrite app_assoc, take_app_length', drop_app_length' by (rewrite length_app; lia).
    replace ((take p o ++ acc) ++ x :: drop p o) with (take p o ++ (acc ++ [x]) ++ drop p o)
      by (by rewrite <- !app_assoc).
    rewrite IH. by rewrite <- !app_assoc.
  - unfold py_insert_pos. rewrite !length_app, length_drop.
    destruct (Z.ltb_spec (- m) 0); lia.
Qed.

Lemma insert_fold_past_end (o acc L : list string) (index : Z) :
  (Z.of_nat (length o + length acc + length L) <= index + 1)%Z ->
  fold_left (fun o' i => py_list_insert o' index i) L (o ++ acc) = o ++ acc ++ L.
Proof.
  revert acc. induction L as [|x L IH]; intros acc Hle; cbn [fold_left]; [by rewrite app_nil_r|].
  cbn [length] in Hle.
  rewrite (py_list_insert_at_pos _ _ _ (length (o ++ acc))).
  - rewrite firstn_all, drop_all, <- app_assoc. rewrite IH; [by rewrite <- app_assoc|].
    rewrite length_app; cbn [length]; lia.
  - unfold py_insert_pos. rewrite length_app.
    destruct (Z.ltb_spec index 0); lia.
Qed.

Lemma insert_fold_before_start (o acc L : list string) (index : Z) :
  (index + Z.of_nat (length acc + length o + length L) <= 1)%Z ->
  fold_left (fun o' i => py_list_insert o' index i) L (acc ++ o) = rev L ++ acc ++ o.
Proof.
  revert acc. induction L as [|x L IH]; intros acc Hle; cbn [fold_left]; [done|].
  cbn [length] in Hle.
  rewrite (py_list_insert_at_pos _ _ _ 0).
  - rewrite take_0, drop_0. cbn [app].
    pose proof (IH (x :: acc)) as IH'. cbn [app length] in IH'.
    rewrite IH' by lia. cbn [rev]. by rewrite <- app_assoc.
  - unfold py_insert_pos. rewrite length_app.
    destruct (Z.ltb_spec index 0); lia.
Qed.

(** X7 *)
(** [insert(i, x)] with a negative index [-m] inside the order
    ([1 <= m <= len]) puts the items of [x] before the last [m] elements but
    in reverse order, since each one is inserted at [-m] of a longer list. *)
Theorem insert_negative_index_reverses order (m : Z) (it : list item) :
  (1 <= m <= Z.of_nat (length order))%Z ->
  (insert order (- m) it).1 =
  take (Z.to_nat (Z.of_nat (length order) - m)) order ++ rev (validate_order it) ++
  drop (Z.to_nat (Z.of_nat (length order) - m)) order.
Proof.
  intros Hm. unfold insert. cbn [fst].
  rewrite <- (take_drop (Z.to_nat (Z.of_nat (length order) - m)) order) at 1.
  rewrite <- (app_nil_l (drop _ order)).
  apply (insert_fold_negative order m [] (rev (validate_order it)) Hm).
Qed.

Lemma insert_negative_index_reverses_witness :
  (1 <= 1 <= Z.of_nat (length ["a"; "b"; "c"]))%Z /\
  (insert ["a"; "b"; "c"] (- 1) [IStr "x"; IStr "y"]).1 =
  take (Z.to_nat (Z.of_nat (length ["a"; "b"; "c"]) - 1)) ["a"; "b"; "c"] ++
  rev (validate_order [IStr "x"; IStr "y"]) ++
  drop (Z.to_nat (Z.of_nat (length ["a"; "b"; "c"]) - 1)) ["a"; "b"; "c"].
Proof.
  split; [simpl; lia|].
  apply (insert_negative_index_reverses ["a"; "b"; "c"] 1 [IStr "x"; IStr "y"]). simpl. lia.
Defined.

(** X8 *)
(** An index far past the end ([len + n - 1 <= i] for [n] items) appends
    the items of [x] in reverse order; an index far before the start
    ([i + len + n <= 1]) puts them in front in their own order. *)
Theorem insert_far_index order (index : Z) (it : list item) :
  ((Z.of_nat (length order + length (validate_order it)) <= index + 1)%Z ->
     (insert order index it).1 = order ++ rev (validate_order it)) /\
  ((index + Z.of_nat (length order + length (validate_order it)) <= 1)%Z ->
     (insert order index it).1 = validate_order it ++ order).
Proof.
  unfold insert. cbn [fst]. split; intros Hle.
  - rewrite <- (app_nil_r order) at 1.
    rewrite insert_fold_past_end by (rewrite length_rev; simpl; lia). done.
  - rewrite <- (app_nil_l order) at 1.
    rewrite insert_fold_before_start by (rewrite length_rev; simpl; lia).
    by rewrite rev_involutive.
Qed.

Lemma insert_far_index_witness :
  (Z.of_nat (length ["a"; "b"] + length (validate_order [IStr "x"; IStr "y"])) <= 5 + 1)%Z /\
  (insert ["a"; "b"] 5 [IStr "x"; IStr "y"]).1 = ["a"; "b"] ++ rev (validate_order [IStr "x"; IStr "y"]).
Proof.
  split; [simpl; lia|].
  apply (proj1 (insert_far_index ["a"; "b"] 5 [IStr "x"; IStr "y"])). simpl. lia.
Defined.

Lemma py_index_in_range (n j : nat) :
  j < n -> py_index n (Z.of_nat j) = Some j /\ py_index n (Z.of_nat j - Z.of_nat n) = Some j.
Proof.
  intros Hj. unfold py_index. split.
  - destruct (Z.ltb_spec (Z.of_nat j) 0); [lia|].
    destruct (Z.ltb_spec (Z.of_nat j) 0), (Z.leb_spec (Z.of_nat n) (Z.of_nat j)); try lia.
    simpl. f_equal. lia.
  - destruct (Z.ltb_spec (Z.of_nat j - Z.of_nat n) 0); [|lia].
    replace (Z.of_nat j - Z.of_nat n + Z.of_nat n)%Z with (Z.of_nat j) by lia.
    destruct (Z.ltb_spec (Z.of_nat j) 0), (Z.leb_spec (Z.of_nat n) (Z.of_nat j)); try lia.
    simpl. f_equal. lia.
Qed.

Lemma py_index_out_of_range (n : nat) (key : Z) :
  (key < - Z.of_nat n \/ Z.of_nat n <= key)%Z -> py_index n key = None.
Proof.
  intros Hk. unfold py_index.
  destruct (Z.ltb_spec key 0) as [Hn|Hn].
  - destruct (Z.ltb_spec (key + Z.of_nat n) 0); [reflexivity|lia].
  - destruct (Z.ltb_spec key 0); [lia|]. simpl.
    destruct (Z.leb_spec (Z.of_nat n) key); [reflexivity|lia].
Qed.

Lemma to_list_flatten_ids (l : list string) : to_list_flatten (map EId l) = l.
Proof. unfold to_list_flatten. induction l as [|x l IH]; simpl; [done|]. by rewrite IH. Qed.

Lemma to_list_flatten_app (l1 l2 : list entry) :
  to_list_flatten (l1 ++ l2) = to_list_flatten l1 ++ to_list_flatten l2.
Proof. unfold to_list_flatten. by rewrite map_app, concat_app. Qed.

Lemma flatten_insert_nested (l a : list string) (k : nat) :
  k < length l ->
  to_list_flatten (<[k := ENested a]> (map EId l)) = take k l ++ a ++ drop (S k) l.
Proof.
  intros Hk. rewrite insert_take_drop by (by rewrite length_map).
  rewrite to_list_flatten_app. rewrite firstn_map, skipn_map, to_list_flatten_ids.
  f_equal. change (ENested a :: map EId (drop (S k) l)) with ([ENested a] ++ map EId (drop (S k) l)).
  rewrite to_list_flatten_app, to_list_flatten_ids. cbn. by rewrite app_nil_r.
Qed.

(** X9 *)
(** [p[i]] with an integer index returns the Identifier at [i], a negative
    index counting from the end; an index out of range raises
    [ItemNotFoundError] (the [IndexError] is caught), and so does an empty
    Identifier, which the code's [if not a] treats as missing. *)
Theorem getitem_index_behaviour order :
  (forall j x, order !! j = Some x -> x <> "" ->
     getitem_index order (Z.of_nat j) = inl x /\
     getitem_index order (Z.of_nat j - Z.of_nat (length order)) = inl x) /\
  (forall j, order !! j = Some "" -> getitem_index order (Z.of_nat j) = inr ItemNotFoundError) /\
  (forall key, (key < - Z.of_nat (length order) \/ Z.of_nat (length order) <= key)%Z ->
     getitem_index order key = inr ItemNotFoundError).
Proof.
  split; [|split].
  - intros j x Hx Hne. pose proof (lookup_lt_Some _ _ _ Hx) as Hj.
    destruct (py_index_in_range _ _ Hj) as [H1 H2]. unfold getitem_index.
    rewrite H1, H2, Hx, bool_decide_eq_false_2 by done. done.
  - intros j Hx. pose proof (lookup_lt_Some _ _ _ Hx) as Hj.
    destruct (py_index_in_range _ _ Hj) as [H1 _]. unfold getitem_index.
    by rewrite H1, Hx, bool_decide_eq_true_2.
  - intros key Hk. unfold getitem_index. by rewrite py_index_out_of_range.
Qed.

Lemma getitem_index_behaviour_witness :
  ["a"; "b"; "c"] !! 1 = Some "b" /\ "b" <> "" /\
  getitem_index ["a"; "b"; "c"] (Z.of_nat 1) = inl "b" /\
  getitem_index ["a"; "b"; "c"] (Z.of_nat 1 - Z.of_nat (length ["a"; "b"; "c"])) = inl "b".
Proof.
  assert (H1 : ["a"; "b"; "c"] !! 1 = Some "b") by reflexivity.
  assert (H2 : "b" <> "") by discriminate.
  split; [exact H1|]. split; [exact H2|].
  apply (proj1 (getitem_index_behaviour ["a"; "b"; "c"]) 1 "b"); assumption.
Defined.

(** X10 *)
(** [p[i] = x] with an index in range replaces the element at [i] (a
    negative index counting from the end) by all the Identifiers of [x],
    spliced in by the flattening; so an empty [x] deletes the element.  An
    index out of range raises [IndexError] and leaves [p] unchanged. *)
Theorem setitem_index_splices order (it : list item) :
  (forall j, j < length order ->
     setitem_index order (Z.of_nat j) it =
       (take j order ++ validate_order it ++ drop (S j) order, None) /\
     setitem_index order (Z.of_nat j - Z.of_nat (length order)) it =
       (take j order ++ validate_order it ++ drop (S j) order, None)) /\
  (forall key, (key < - Z.of_nat (length order) \/ Z.of_nat (length order) <= key)%Z ->
     setitem_index order key it = (order, Some IndexError)).
Proof.
  split.
  - intros j Hj. destruct (py_index_in_range _ _ Hj) as [H1 H2]. unfold setitem_index.
    by rewrite H1, H2, flatten_insert_nested.
  - intros key Hk. unfold setitem_index. by rewrite py_index_out_of_range.
Qed.

Lemma setitem_index_splices_witness :
  1 < length ["a"; "b"; "c"] /\
  setitem_index ["a"; "b"; "c"] (Z.of_nat 1) [] =
    (take 1 ["a"; "b"; "c"] ++ validate_order [] ++ drop 2 ["a"; "b"; "c"], None).
Proof.
  split; [simpl; lia|].
  apply (proj1 (setitem_index_splices ["a"; "b"; "c"] []) 1). simpl. lia.
Defined.

(** X11 *)
(** Round trip: after [p[i] = x] for one item [x] with a non-empty
    Identifier and [i] in range, [p[i]] returns that Identifier and the
    length of [p] is unchanged. *)
Theorem setitem_then_getitem order (j : nat) (i : item) :
  j < length order -> get_id i <> "" ->
  getitem_index (setitem_index order (Z.of_nat j) [i]).1 (Z.of_nat j) = inl (get_id i) /\
  length (setitem_index order (Z.of_nat j) [i]).1 = length order.
Proof.
  intros Hj Hne. rewrite (proj1 (proj1 (setitem_index_splices order [i]) j Hj)). cbn [fst].
  assert (Hl : length (take j order) = j) by (apply length_take_le; lia).
  assert (Hlen : length (take j order ++ validate_order [i] ++ drop (S j) order) = length order)
    by (rewrite !length_app, length_drop; simpl; lia).
  split; [|exact Hlen].
  assert (Hx : (take j order ++ validate_order [i] ++ drop (S j) order) !! j = Some (get_id i))
    by (rewrite lookup_app_r by lia; rewrite Hl, Nat.sub_diag; reflexivity).
  apply (proj1 (getitem_index_behaviour _) j); done.
Qed.

Lemma setitem_then_getitem_witness :
  1 < length ["a"; "b"; "c"] /\ get_id (IStr "z") <> "" /\
  getitem_index (setitem_index ["a"; "b"; "c"] (Z.of_nat 1) [IStr "z"]).1 (Z.of_nat 1) =
    inl (get_id (IStr "z")) /\
  length (setitem_index ["a"; "b"; "c"] (Z.of_nat 1) [IStr "z"]).1 = length ["a"; "b"; "c"].
Proof.
  assert (H1 : 1 < length ["a"; "b"; "c"]) by (simpl; lia).
  assert (H2 : get_id (IStr "z") <> "") by discriminate.
  split; [exact H1|]. split; [exact H2|].
  apply setitem_then_getitem; assumption.
Defined.

Lemma slice_walk_step1 (fuel : nat) (l : list string) (i stop : Z) :
  (0 <= i <= stop)%Z -> (stop <= Z.of_nat (length l))%Z -> (stop - i < Z.of_nat fuel)%Z ->
  slice_walk fuel l i stop 1 = take (Z.to_nat (stop - i)) (drop (Z.to_nat i) l).
Proof.
  revert i. induction fuel as [|f IH]; intros i Hi Hs Hf; [lia|]. cbn [slice_walk].
  destruct (Z.ltb_spec i stop) as [Hlt|Hge]; cbn [Z.ltb Z.compare].
  - assert (Hk : Z.to_nat i < length l) by lia.
    destruct (lookup_lt_is_Some_2 _ _ Hk) as [x Hx]. rewrite Hx.
    rewrite IH by lia. rewrite (drop_S l x (Z.to_nat i)) by done.
    replace (Z.to_nat (stop - i)) with (S (Z.to_nat (stop - (i + 1)))) by lia.
    replace (Z.to_nat (i + 1)) with (S (Z.to_nat i)) by lia. done.
  - replace (Z.to_nat (stop - i)) with 0 by lia. done.
Qed.

Lemma slice_walk_reverse (fuel : nat) (l : list string) (i : Z) :
  (-1 <= i < Z.of_nat (length l))%Z -> (i + 1 < Z.of_nat fuel)%Z ->
  slice_walk fuel l i (-1) (-1) = rev (take (Z.to_nat (i + 1)) l).
Proof.
  revert i. induction fuel as [|f IH]; intros i Hi Hf; [lia|]. cbn [slice_walk].
  destruct (Z.ltb_spec (-1) i) as [Hlt|Hge]; cbn [Z.ltb Z.compare].
  - assert (Hk : Z.to_nat i < length l) by lia.
    destruct (lookup_lt_is_Some_2 _ _ Hk) as [x Hx]. rewrite Hx.
    rewrite IH by lia. replace (i + -1 + 1)%Z with i by lia.
    replace (Z.to_nat (i + 1)) with (S (Z.to_nat i)) by lia.
    rewrite (take_S_r l (Z.to_nat i) x) by done. by rewrite rev_app_distr.
  - replace (Z.to_nat (i + 1)) with 0 by lia. done.
Qed.

Lemma py_slice_range (l : list string) (a b : nat) :
  a <= b <= length l ->
  py_slice l (mkSlice (Some (Z.of_nat a)) (Some (Z.of_nat b)) None) = Some (take (b - a) (drop a l)).
Proof.
  intros Hab. unfold py_slice. cbn [sl_step sl_start sl_stop default Z.eqb Z.ltb Z.compare].
  unfold adjust_bound.
  destruct (Z.ltb_spec (Z.of_nat a) 0); [lia|]. destruct (Z.ltb_spec (Z.of_nat (length l)) (Z.of_nat a)); [lia|].
  destruct (Z.ltb_spec (Z.of_nat b) 0); [lia|]. destruct (Z.ltb_spec (Z.of_nat (length l)) (Z.of_nat b)); [lia|].
  rewrite slice_walk_step1 by lia.
  replace (Z.to_nat (Z.of_nat b - Z.of_nat a)) with (b - a) by lia. by rewrite Nat2Z.id.
Qed.

(** X12 *)
(** Reading a slice: for [0 <= a < b <= len], [p[a:b]] returns the
    Identifiers at positions [a] to [b - 1]; [p[a:a]] raises
    [ItemNotFoundError]; for a non-empty [p], [p[:]] returns the whole order
    and [p[::-1]] the order reversed. *)
Theorem getitem_slice_contents order (a b : nat) :
  (a < b <= length order ->
     getitem_slice order (mkSlice (Some (Z.of_nat a)) (Some (Z.of_nat b)) None) =
     inl (take (b - a) (drop a order))) /\
  (a <= length order ->
     getitem_slice order (mkSlice (Some (Z.of_nat a)) (Some (Z.of_nat a)) None) =
     inr ItemNotFoundError) /\
  (order <> [] ->
     getitem_slice order (mkSlice None None None) = inl order /\
     getitem_slice order (mkSlice None None (Some (-1)%Z)) = inl (rev order)).
Proof.
  split; [|split].
  - intros Hab. unfold getitem_slice. rewrite py_slice_range by lia.
    destruct (take (b - a) (drop a order)) as [|x t] eqn:E.
    + exfalso. apply (f_equal length) in E. rewrite length_take, length_drop in E. simpl in E. lia.
    + rewrite <- E. apply f_equal. apply getitem_slice_copy.
  - intros Ha. unfold getitem_slice. rewrite py_slice_range by lia.
    by rewrite Nat.sub_diag, take_0.
  - intros Hne. split.
    + unfold getitem_slice, py_slice. cbn [sl_step sl_start sl_stop default id Z.eqb Z.ltb Z.compare adjust_bound].
      rewrite slice_walk_step1 by lia. replace (Z.of_nat (length order) - 0)%Z with (Z.of_nat (length order)) by lia.
      rewrite Nat2Z.id, drop_0, firstn_all.
      destruct order as [|x t]; [done|]. exact (f_equal inl (getitem_slice_copy (x :: t))).
    + unfold getitem_slice, py_slice. cbn [sl_step sl_start sl_stop default id Z.eqb Z.ltb Z.compare adjust_bound].
      assert (Hl : (0 < Z.of_nat (length order))%Z) by (destruct order; [done|simpl; lia]).
      rewrite slice_walk_reverse by lia.
      replace (Z.to_nat (Z.of_nat (length order) - 1 + 1)) with (length order) by lia.
      rewrite firstn_all. destruct (rev order) as [|x t] eqn:E.
      * exfalso. apply Hne. rewrite <- (rev_involutive order), E. done.
      * exact (f_equal inl (getitem_slice_copy (x :: t))).
Qed.

Lemma getitem_slice_contents_witness :
  ["a"; "b"; "c"] <> [] /\
  getitem_slice ["a"; "b"; "c"] (mkSlice None None None) = inl ["a"; "b"; "c"] /\
  getitem_slice ["a"; "b"; "c"] (mkSlice None None (Some (-1)%Z)) = inl (rev ["a"; "b"; "c"]).
Proof.
  split; [discriminate|].
  apply (proj2 (proj2 (getitem_slice_contents ["a"; "b"; "c"] 0 0))). discriminate.
Defined.

Lemma setitem_slice_range_eq order (a b : nat) (it : list item) :
  a <= length order -> b <= length order ->
  setitem_slice order (mkSlice (Some (Z.of_nat a)) (Some (Z.of_nat b)) None) it =
  (take a order ++ validate_order it ++ drop (Nat.max a b) order, None).
Proof.
  intros Ha Hb. unfold setitem_slice, py_slice_assign.
  cbn [sl_step sl_start sl_stop default id Z.eqb Z.ltb Z.compare]. unfold adjust_bound.
  rewrite length_map.
  destruct (Z.ltb_spec (Z.of_nat a) 0); [lia|]. destruct (Z.ltb_spec (Z.of_nat (length order)) (Z.of_nat a)); [lia|].
  destruct (Z.ltb_spec (Z.of_nat b) 0); [lia|]. destruct (Z.ltb_spec (Z.of_nat (length order)) (Z.of_nat b)); [lia|].
  replace (Z.to_nat (Z.max (Z.of_nat a) (Z.of_nat b))) with (Nat.max a b) by lia.
  cbn [Pos.eqb]. rewrite Nat2Z.id, firstn_map, skipn_map, !to_list_flatten_app, !to_list_flatten_ids. done.
Qed.

(** X13 *)
(** [p[a:b] = x] (no step, [0 <= a, b <= len]) replaces the positions [a]
    to [b - 1] by the Identifiers of [x], which may be of any length; with
    [b <= a] nothing is removed and [x] is inserted at [a]. *)
Theorem setitem_slice_replaces order (a b : nat) (it : list item) :
  a <= length order -> b <= length order ->
  setitem_slice order (mkSlice (Some (Z.of_nat a)) (Some (Z.of_nat b)) None) it =
  (take a order ++ validate_order it ++ drop (Nat.max a b) order, None).
Proof. apply setitem_slice_range_eq. Qed.

Lemma setitem_slice_replaces_witness :
  3 <= length ["a"; "b"; "c"; "d"] /\ 1 <= length ["a"; "b"; "c"; "d"] /\
  setitem_slice ["a"; "b"; "c"; "d"] (mkSlice (Some (Z.of_nat 3)) (Some (Z.of_nat 1)) None) [IStr "x"] =
  (take 3 ["a"; "b"; "c"; "d"] ++ validate_order [IStr "x"] ++ drop (Nat.max 3 1) ["a"; "b"; "c"; "d"], None).
Proof.
  split; [simpl; lia|]. split; [simpl; lia|].
  apply setitem_slice_replaces; simpl; lia.
Defined.

(** X14 *)
(** Slice round trips: after [p[a:b] = x] with [x] non-empty,
    [p[a:a+len(x)]] returns the Identifiers of [x]; and assigning to
    [p[a:b]] the slice it already holds leaves [p] unchanged. *)
Theorem setitem_slice_round_trips order (a b : nat) (it : list item) :
  a <= b <= length order ->
  (it <> [] ->
     getitem_slice (setitem_slice order (mkSlice (Some (Z.of_nat a)) (Some (Z.of_nat b)) None) it).1
       (mkSlice (Some (Z.of_nat a)) (Some (Z.of_nat (a + length it))) None) =
     inl (validate_order it)) /\
  setitem_slice order (mkSlice (Some (Z.of_nat a)) (Some (Z.of_nat b)) None)
    (map IStr (take (b - a) (drop a order))) = (order, None).
Proof.
  intros Hab. rewrite !setitem_slice_range_eq by lia. cbn [fst].
  replace (Nat.max a b) with b by lia.
  assert (Hta : length (take a order) = a) by (apply length_take_le; lia).
  assert (Hv : length (validate_order it) = length it) by apply length_map.
  split.
  - intros Hne. unfold getitem_slice. rewrite py_slice_range
      by (rewrite !length_app, length_drop; lia).
    replace (a + length it - a) with (length (validate_order it)) by lia.
    rewrite drop_app_length' by done. rewrite take_app_length' by done.
    destruct it as [|i it']; [done|]. cbn [validate_order map].
    exact (f_equal (@inl (list string) error) (getitem_slice_copy (get_id i :: map get_id it'))).
  - f_equal. rewrite getitem_slice_copy.
    assert (Hd : drop b order = drop (b - a) (drop a order))
      by (rewrite drop_drop; f_equal; lia).
    rewrite Hd, take_drop. apply take_drop.
Qed.

Lemma setitem_slice_round_trips_witness :
  1 <= 2 <= length ["a"; "b"; "c"] /\ [IStr "x"; IStr "y"] <> [] /\
  getitem_slice (setitem_slice ["a"; "b"; "c"] (mkSlice (Some (Z.of_nat 1)) (Some (Z.of_nat 2)) None)
                   [IStr "x"; IStr "y"]).1
    (mkSlice (Some (Z.of_nat 1)) (Some (Z.of_nat (1 + length [IStr "x"; IStr "y"]))) None) =
  inl (validate_order [IStr "x"; IStr "y"]).
Proof.
  assert (H : 1 <= 2 <= length ["a"; "b"; "c"]) by (simpl; lia).
  split; [exact H|]. split; [discriminate|].
  apply (proj1 (setitem_slice_round_trips ["a"; "b"; "c"] 1 2 [IStr "x"; IStr "y"] H)). discriminate.
Defined.

Lemma insert_map_EId (l : list string) (k : nat) (x : string) :
  <[k := EId x]> (map EId l) = map EId (<[k := x]> l).
Proof.
  revert k. induction l as [|y l IH]; intros [|k]; simpl; try reflexivity.
  by rewrite IH.
Qed.

Lemma elem_of_insert_either (l : list string) (k : nat) (x y : string) :
  y ∈ <[k := x]> l -> y ∈ l \/ y = x.
Proof.
  revert k. induction l as [|z l IH]; intros [|k]; simpl; intros Hy.
  - by left.
  - by left.
  - apply elem_of_cons in Hy as [->|Hy]; [by right|left; by apply elem_of_cons; right].
  - apply elem_of_cons in Hy as [->|Hy]; [left; by apply elem_of_cons; left|].
    destruct (IH k Hy) as [H|H]; [left; by apply elem_of_cons; right|by right].
Qed.

Lemma fold_insert_ids (idx : list Z) (v l : list string) :
  fold_left (fun acc p => <[Z.to_nat p.1 := p.2]> acc) (zip idx (map EId v)) (map EId l) =
  map EId (fold_left (fun acc p => <[Z.to_nat p.1 := p.2]> acc) (zip idx v) l).
Proof.
  revert v l. induction idx as [|k idx IH]; intros [|x v] l; simpl; try reflexivity.
  by rewrite insert_map_EId, IH.
Qed.

Lemma fold_insert_shape (ps : list (Z * string)) (l : list string) :
  length (fold_left (fun acc p => <[Z.to_nat p.1 := p.2]> acc) ps l) = length l /\
  (forall y, y ∈ fold_left (fun acc p => <[Z.to_nat p.1 := p.2]> acc) ps l ->
     y ∈ l \/ y ∈ ps.*2).
Proof.
  revert l. induction ps as [|[k x] ps IH]; intros l; simpl.
  - split; [done|]. intros y Hy. by left.
  - destruct (IH (<[Z.to_nat k := x]> l)) as [Hlen Hin]. split.
    + by rewrite Hlen, length_insert.
    + intros y Hy. destruct (Hin y Hy) as [H|H].
      * destruct (elem_of_insert_either l (Z.to_nat k) x y H) as [H'|Heq];
          [by left|subst y; right; apply elem_of_cons; by left].
      * right. by apply elem_of_cons; right.
Qed.

Lemma elem_of_zip_snd (idx : list Z) (v : list string) (y : string) :
  y ∈ (zip idx v).*2 -> y ∈ v.
Proof.
  revert v. induction idx as [|k idx IH]; intros [|x v]; simpl; intros Hy;
    try by apply not_elem_of_nil in Hy.
  apply elem_of_cons in Hy as [->|Hy]; apply elem_of_cons; [by left|right; by apply IH].
Qed.

Lemma fold_insert_pointwise (ps : list (Z * string)) (l : list string) (j : nat) :
  fold_left (fun acc p => <[Z.to_nat p.1 := p.2]> acc) ps l !! j = l !! j \/
  exists x, fold_left (fun acc p => <[Z.to_nat p.1 := p.2]> acc) ps l !! j = Some x /\
    x ∈ ps.*2.
Proof.
  revert l. induction ps as [|[k x] ps IH]; intros l; simpl; [by left|].
  destruct (IH (<[Z.to_nat k := x]> l)) as [E|(y & E & Hy)].
  - rewrite E. destruct (decide (j = Z.to_nat k)) as [->|Hne].
    + destruct (decide (Z.to_nat k < length l)) as [Hlt|Hge].
      * right. exists x. rewrite list_lookup_insert_eq by done.
        split; [done|]. apply elem_of_cons. by left.
      * left. rewrite list_insert_ge by lia. done.
    + left. by apply list_lookup_insert_ne.
  - right. exists y. split; [done|]. apply elem_of_cons. by right.
Qed.

(** X15 *)
(** Assignment to an extended slice (a step other than 1) never changes the
    length of [p]: a zero step raises [ValueError] and leaves [p] unchanged;
    otherwise it either raises [ValueError] (the Identifiers of [x] do not
    match the selected positions in number) with [p] unchanged, or
    overwrites positions in place: every position of the result holds the
    Identifier [p] had there or an Identifier of [x]. *)
Theorem setitem_extended_slice order (s : slice) (it : list item) :
  default 1%Z (sl_step s) <> 1%Z ->
  (default 1%Z (sl_step s) = 0%Z -> setitem_slice order s it = (order, Some ValueError)) /\
  (setitem_slice order s it = (order, Some ValueError) \/
   exists o', setitem_slice order s it = (o', None) /\ length o' = length order /\
     forall j, o' !! j = order !! j \/ exists x, o' !! j = Some x /\ x ∈ validate_order it).
Proof.
  intros H1. unfold setitem_slice, py_slice_assign. cbv zeta.
  destruct (Z.eqb_spec (default 1%Z (sl_step s)) 0) as [H0|H0].
  { split; [done|by left]. }
  split; [done|].
  destruct (Z.eqb_spec (default 1%Z (sl_step s)) 1) as [E|E]; [done|].
  match goal with |- context [Nat.eqb ?m ?n] => destruct (Nat.eqb m n) end;
    [right|by left].
  rewrite fold_insert_ids, to_list_flatten_ids.
  eexists. split; [reflexivity|].
  match goal with |- context [fold_left _ ?ps order] =>
    destruct (fold_insert_shape ps order) as [Hlen _] end.
  split; [exact Hlen|].
  intros j.
  match goal with |- context [fold_left _ ?ps order] =>
    destruct (fold_insert_pointwise ps order j) as [Hj|(x & Hj & Hx)] end;
    [by left|right].
  exists x. split; [done|]. by eapply elem_of_zip_snd.
Qed.

Lemma setitem_extended_slice_witness :
  default 1%Z (sl_step (mkSlice None None (Some 2%Z))) <> 1%Z /\
  (setitem_slice ["a"; "b"; "c"] (mkSlice None None (Some 2%Z)) [IStr "x"; IStr "y"] =
     (["a"; "b"; "c"], Some ValueError) \/
   exists o', setitem_slice ["a"; "b"; "c"] (mkSlice None None (Some 2%Z)) [IStr "x"; IStr "y"] = (o', None) /\
     length o' = length ["a"; "b"; "c"] /\
     forall j, o' !! j = ["a"; "b"; "c"] !! j \/
       exists x, o' !! j = Some x /\ x ∈ validate_order [IStr "x"; IStr "y"]).
Proof.
  assert (H : default 1%Z (sl_step (mkSlice None None (Some 2%Z))) <> 1%Z) by (simpl; lia).
  split; [exact H|].
  exact (proj2 (setitem_extended_slice ["a"; "b"; "c"] (mkSlice None None (Some 2%Z)) [IStr "x"; IStr "y"] H)).
Defined.

End ProgressionExtra.
